(** * List_set: the sequential sorted linked-list set

    A shallow embedding of [old/cpp_list_sets/src/List_set.h].  The list is
    a chain of heap-allocated nodes owned through [std::unique_ptr]; it is
    modelled as a finite store of nodes indexed by addresses, so that
    sharing, cycles, dangling links and null links are all expressible and
    the well-formedness of the chain is a real invariant. *)

From stdpp Require Import gmap list sorting.
From Stdlib Require Import ZArith.

#[local] Set Warnings "-clear-no-such-hyp".

(** ** Elements

    [List_set] is a template over the element type [T]; the code uses
    [key <= element], [element == key] and value-initialisation [T{}]. *)

Class Element (T : Type) := {
  elt_le : T → T → bool;      (* operator<= *)
  elt_eqb : T → T → bool;     (* operator== *)
  elt_default : T;            (* T{} *)
}.

(** The precondition on [T]: [<=] is a total order and [==] decides
    equality. *)
Class ElementOrder (T : Type) {ops : Element T} : Prop := {
  elt_eqb_eq : ∀ x y : T, elt_eqb x y = true ↔ x = y;
  elt_le_total : ∀ x y : T, elt_le x y = true ∨ elt_le y x = true;
  elt_le_trans : ∀ x y z : T, elt_le x y = true → elt_le y z = true → elt_le x z = true;
  elt_le_antisym : ∀ x y : T, elt_le x y = true → elt_le y x = true → x = y;
}.

(** [x < y], as the traversal tests it: not [y <= x]. *)
Definition elt_lt {T} {ops : Element T} (x y : T) : Prop := elt_le y x = false.

#[export] Instance elt_lt_dec {T} {ops : Element T} (x y : T) : Decision (elt_lt x y) :=
  decide (elt_le y x = false).

#[export] Instance Z_Element : Element Z :=
  {| elt_le := Z.leb; elt_eqb := Z.eqb; elt_default := 0%Z |}.

(** ** Outcomes

    A run of the code either returns, or dereferences a null or dangling
    link ([Fault], undefined behaviour in C++), or is still looping when
    the step budget of the model is used up ([Timeout]). *)

Inductive result (A : Type) : Type :=
  | Ok (a : A)
  | Fault
  | Timeout.
Arguments Ok {A} a.
Arguments Fault {A}.
Arguments Timeout {A}.

#[export] Instance result_bind : MBind result := λ A B k r,
  match r with
  | Ok a => k a
  | Fault => Fault
  | Timeout => Timeout
  end.

#[export] Instance result_ret : MRet result := λ A a, Ok a.

(** ** Nodes and the store *)

Definition loc := positive.

(** [link_t = std::unique_ptr<Node>]: null or the address of a node. *)
Definition link_t := option loc.

Section list_set.
Context {T : Type} {ops : Element T}.

(** [struct Node { T element; link_t next; }] *)
Record Node := mkNode { element : T; next : link_t }.

(** The object: the nodes allocated so far and the head link [link_]. *)
Record List_set := mkSet { heap : gmap loc Node; link_ : link_t }.

(** [->] on a raw pointer. *)
Definition load (h : gmap loc Node) (p : loc) : result Node :=
  match h !! p with
  | Some n => Ok n
  | None => Fault
  end.

(** [->] or [*] on a link. *)
Definition deref (h : gmap loc Node) (l : link_t) : result Node :=
  match l with
  | Some p => load h p
  | None => Fault
  end.

(** [&*l] *)
Definition address (h : gmap loc Node) (l : link_t) : result loc :=
  match l with
  | Some p => _ ← load h p; Ok p
  | None => Fault
  end.

(** Modelled from the spec: [Node_base::is_last], declared in
    [Node_base.h], which is not among the sources.  The tail sentinel is
    the unique node for which it holds; in the chain built by the
    constructor that is the node whose [next] is null. *)
Definition is_last (n : Node) : bool :=
  match next n with
  | None => true
  | Some _ => false
  end.

(** [new Node{}]: a value-initialised node at an unused address. *)
Definition new_node (h : gmap loc Node) : loc * gmap loc Node :=
  let p := fresh (dom h) in
  (p, <[p := mkNode elt_default None]> h).

Definition set_element (h : gmap loc Node) (p : loc) (x : T) : result (gmap loc Node) :=
  n ← load h p;
  Ok (<[p := mkNode x (next n)]> h).

(** [~unique_ptr]: deleting a node first destroys its [next] member, and
    so the whole chain that the node owns. *)
Fixpoint destroy (fuel : nat) (h : gmap loc Node) (l : link_t) : result (gmap loc Node) :=
  match l with
  | None => Ok h
  | Some p =>
      match fuel with
      | O => Timeout
      | S fuel' =>
          n ← load h p;
          h' ← destroy fuel' h (next n);
          Ok (delete p h')
      end
  end.

(** [p->next.release()]: the link is handed out and the member is left
    null. *)
Definition release_next (h : gmap loc Node) (p : loc) : result (link_t * gmap loc Node) :=
  n ← load h p;
  Ok (next n, <[p := mkNode (element n) None]> h).

(** [p->next.reset(l)]: the member takes [l], then the node it owned
    before is deleted. *)
Definition reset_next (fuel : nat) (h : gmap loc Node) (p : loc) (l : link_t) :
    result (gmap loc Node) :=
  n ← load h p;
  destroy fuel (<[p := mkNode (element n) l]> h) (next n).

(** ** The operations *)

(** The loop of [find_predecessor]:
    [for (...; !ptr->next->is_last(); ptr = &*ptr->next)
       if (key <= ptr->next->element) break;] *)
Fixpoint find_loop (fuel : nat) (h : gmap loc Node) (key : T) (ptr : loc) : result loc :=
  match fuel with
  | O => Timeout
  | S fuel' =>
      n ← load h ptr;
      s ← deref h (next n);
      if is_last s then Ok ptr
      else if elt_le key (element s) then Ok ptr
      else
        q ← address h (next n);
        find_loop fuel' h key q
  end.

Definition find_predecessor (fuel : nat) (s : List_set) (key : T) : result loc :=
  ptr ← address (heap s) (link_ s);
  find_loop fuel (heap s) key ptr.

(** [!prev.next->is_last() && prev.next->element == key] *)
Definition matches (h : gmap loc Node) (prev : loc) (key : T) : result bool :=
  n ← load h prev;
  s ← deref h (next n);
  if negb (is_last s) then
    s' ← deref h (next n);
    Ok (elt_eqb (element s') key)
  else Ok false.

(** The constructor: the tail is allocated first, then the head; the head
    takes the tail as its [next] and [link_] takes the head. *)
Definition List_set_new : result List_set :=
  let '(tail, h1) := new_node ∅ in
  let '(head, h2) := new_node h1 in
  h3 ← reset_next 0 h2 head (Some tail);
  Ok (mkSet h3 (Some head)).

Definition member (fuel : nat) (s : List_set) (key : T) : result bool :=
  prev ← find_predecessor fuel s key;
  matches (heap s) prev key.

(** [prev.next = std::move(prev.next->next)] is
    [prev.next.reset(prev.next->next.release())]. *)
Definition remove (fuel : nat) (s : List_set) (key : T) : result (bool * List_set) :=
  prev ← find_predecessor fuel s key;
  m ← matches (heap s) prev key;
  if negb m then Ok (false, s)
  else
    n ← load (heap s) prev;
    victim ← address (heap s) (next n);
    '(l, h1) ← release_next (heap s) victim;
    h2 ← reset_next fuel h1 prev l;
    Ok (true, mkSet h2 (link_ s)).

Definition insert (fuel : nat) (s : List_set) (key : T) : result (bool * List_set) :=
  prev ← find_predecessor fuel s key;
  m ← matches (heap s) prev key;
  if m : bool then Ok (false, s)
  else
    let '(nn, h1) := new_node (heap s) in
    h2 ← set_element h1 nn key;
    '(l, h3) ← release_next h2 prev;
    h4 ← reset_next fuel h3 nn l;
    h5 ← reset_next fuel h4 prev (Some nn);
    Ok (true, mkSet h5 (link_ s)).

End list_set.

Arguments Node T : clear implicits.
Arguments List_set T : clear implicits.

(** ** The chain and its invariant *)

Section chain.
Context {T : Type} {ops : Element T}.
Implicit Types (h : gmap loc (Node T)) (p q tl : loc) (cells : list (loc * T)).

(** [p->next] is the node at [q]. *)
Definition links h p q : Prop := ∃ n, h !! p = Some n ∧ next n = Some q.

(** The node at [p] holds the element [x]. *)
Definition holds h p x : Prop := ∃ n, h !! p = Some n ∧ element n = x.

(** The node at [p] is the tail sentinel: its link is null. *)
Definition is_tail h p : Prop := ∃ n, h !! p = Some n ∧ next n = None.

(** From the node at [p], following [next] visits exactly the nodes
    [cells] (address and element of each, in order) and then the tail
    sentinel at [tl]. *)
Fixpoint chain h p cells tl : Prop :=
  match cells with
  | [] => links h p tl ∧ is_tail h tl
  | c :: cells' => links h p c.1 ∧ holds h c.1 c.2 ∧ chain h c.1 cells' tl
  end.

(** All the addresses on the way, sentinels included. *)
Definition path p cells tl : list loc := p :: cells.*1 ++ [tl].

(** The node reached from [p] after the cells [before]. *)
Fixpoint last_of p (before : list (loc * T)) : loc :=
  match before with
  | [] => p
  | c :: before' => last_of c.1 before'
  end.

(** Where the traversal for [key] stops in a chain [before ++ after]:
    every cell of [before] is less than [key], and the first cell of
    [after], if there is one, is not. *)
Definition stops_at (key : T) (before after : list (loc * T)) : Prop :=
  Forall (λ c, elt_lt c.2 key) before ∧
  match after with
  | [] => True
  | c :: _ => elt_le key c.2 = true
  end.

(** The set object [s] is a chain from the head sentinel [hd] through
    [cells] to the tail sentinel [tl], on which no node occurs twice. *)
Record list_repr (s : List_set T) hd cells tl : Prop := mk_list_repr {
  repr_head : link_ s = Some hd;
  repr_chain : chain (heap s) hd cells tl;
  repr_nodup : NoDup (path hd cells tl);
}.

(** Ownership: every node of the store is on the chain, each one owned by
    the node before it and the head sentinel by [link_]. *)
Definition owns_all (s : List_set T) hd cells tl : Prop :=
  dom (heap s) = list_to_set (path hd cells tl).

(** Strictly ascending by element. *)
Definition ascending cells : Prop := StronglySorted elt_lt cells.*2.

(** The invariant of the data model. *)
Definition well_formed (s : List_set T) : Prop :=
  ∃ hd cells tl, list_repr s hd cells tl ∧ ascending cells.

End chain.

(** ** Calls through the [Set_base] interface *)

Inductive operation (T : Type) : Type :=
  | Member (key : T)
  | Insert (key : T)
  | Remove (key : T).
Arguments Member {T} key.
Arguments Insert {T} key.
Arguments Remove {T} key.

(** One call on the object: the value returned and the object afterwards.
    [member] is a [const] method and leaves the object as it is. *)
Definition call {T} {ops : Element T} (fuel : nat) (o : operation T) (s : List_set T) :
    result (bool * List_set T) :=
  match o with
  | Member key => b ← member fuel s key; Ok (b, s)
  | Insert key => insert fuel s key
  | Remove key => remove fuel s key
  end.

(** ** Two concrete objects over [int] *)

(** The object after [insert(5)], [insert(3)], [insert(8)] on a new set:
    the tail sentinel is node 1 and the head sentinel node 2. *)
Definition example_set : List_set Z :=
  mkSet (list_to_map
           [(1%positive, mkNode 0%Z None);
            (2%positive, mkNode 0%Z (Some 4%positive));
            (3%positive, mkNode 5%Z (Some 5%positive));
            (4%positive, mkNode 3%Z (Some 3%positive));
            (5%positive, mkNode 8%Z (Some 1%positive))])
        (Some 2%positive).

Definition example_cells : list (loc * Z) :=
  [(4%positive, 3%Z); (3%positive, 5%Z); (5%positive, 8%Z)].

(** A store that no sequence of calls builds: the node after the head
    links to itself, and there is no tail. *)
Definition cyclic_set : List_set Z :=
  mkSet (list_to_map
           [(1%positive, mkNode 0%Z (Some 2%positive));
            (2%positive, mkNode 1%Z (Some 2%positive))])
        (Some 1%positive).

(** A store without a tail sentinel: the link of the head is null. *)
Definition tailless_set : List_set Z :=
  mkSet (list_to_map [(1%positive, mkNode 0%Z None)]) (Some 1%positive).

(** ** The read-only interface for diagnostics *)

Section diagnostics.
Context {T : Type}.

(** [head()]: [return &*link_;] *)
Definition head (s : List_set T) : result loc := address (heap s) (link_ s).

(** [Node::get_element()]: [return element;] *)
Definition get_element (n : Node T) : T := element n.

(** [Node::get_next()]: [return &*next;] *)
Definition get_next (h : gmap loc (Node T)) (n : Node T) : result loc :=
  address h (next n).

(** [k] times [n = n->get_next()], from the node at [p]. *)
Fixpoint node_at (k : nat) (h : gmap loc (Node T)) (p : loc) : result loc :=
  match k with
  | O => Ok p
  | S k' =>
      n ← load h p;
      q ← get_next h n;
      node_at k' h q
  end.

(** The destructor, which the class leaves implicit: the member [link_]
    is destroyed, and with it the chain that it owns. *)
Definition List_set_delete (fuel : nat) (s : List_set T) : result (gmap loc (Node T)) :=
  destroy fuel (heap s) (link_ s).

(** The object [s] with [x] and [y] for the elements of the sentinels at
    [hd] and [tl], which the constructor leaves at [T{}]. *)
Definition with_sentinels (x y : T) (hd tl : loc) (s : List_set T) : List_set T :=
  mkSet (alter (λ n, mkNode x (next n)) hd
           (alter (λ n, mkNode y (next n)) tl (heap s)))
        (link_ s).

End diagnostics.

(** ** Sequences of calls and the set they stand for *)

Section reference.
Context {T : Type} {ops : Element T}.

Definition key_of (o : operation T) : T :=
  match o with
  | Member key | Insert key | Remove key => key
  end.

(** The calls [os] one after the other: the values returned and the
    object at the end. *)
Fixpoint run (fuel : nat) (os : list (operation T)) (s : List_set T) :
    result (list bool * List_set T) :=
  match os with
  | [] => Ok ([], s)
  | o :: os' =>
      '(b, s1) ← call fuel o s;
      '(bs, s2) ← run fuel os' s1;
      Ok (b :: bs, s2)
  end.

(** The reference: a set of elements kept as a list without order, with
    the contract of [Set_base]: [member] tells whether the key is there,
    [insert] returns false iff it is there already, [remove] returns false
    iff it is not there. *)
Definition ref_member (key : T) (xs : list T) : bool :=
  existsb (λ x, elt_eqb x key) xs.

Definition ref_call (o : operation T) (xs : list T) : bool * list T :=
  match o with
  | Member key => (ref_member key xs, xs)
  | Insert key => if ref_member key xs then (false, xs) else (true, key :: xs)
  | Remove key => (ref_member key xs, List.filter (λ x, negb (elt_eqb x key)) xs)
  end.

Fixpoint ref_run (os : list (operation T)) (xs : list T) : list bool * list T :=
  match os with
  | [] => ([], xs)
  | o :: os' =>
      let '(b, xs1) := ref_call o xs in
      let '(bs, xs2) := ref_run os' xs1 in
      (b :: bs, xs2)
  end.

End reference.

(** The scenario of the specification as calls. *)
Definition scenario : list (operation Z) :=
  [Insert 5%Z; Insert 3%Z; Insert 8%Z; Member 3%Z; Member 8%Z; Member 1%Z;
   Remove 3%Z; Member 3%Z; Remove 3%Z].

(** * Properties *)

#[export] Instance Z_ElementOrder : ElementOrder Z.
Proof.
  split; simpl.
  - intros x y. apply Z.eqb_eq.
  - intros x y. rewrite !Z.leb_le. lia.
  - intros x y z. rewrite !Z.leb_le. lia.
  - intros x y. rewrite !Z.leb_le. lia.
Qed.

Section order.
Context {T : Type} {ops : Element T} {ord : ElementOrder T}.
Implicit Types x y z : T.

Lemma elt_le_refl x : elt_le x x = true.
Proof. by destruct (elt_le_total x x). Qed.

Lemma elt_lt_irrefl x : ¬ elt_lt x x.
Proof. unfold elt_lt. by rewrite elt_le_refl. Qed.

Lemma elt_lt_le x y : elt_lt x y → elt_le x y = true.
Proof. unfold elt_lt. intros Hlt. destruct (elt_le_total x y); congruence. Qed.

Lemma elt_lt_alt x y : elt_lt x y ↔ elt_le x y = true ∧ x ≠ y.
Proof.
  split.
  - intros Hlt. split; [by apply elt_lt_le|].
    intros ->. by apply elt_lt_irrefl in Hlt.
  - intros [Hle Hne]. unfold elt_lt.
    destruct (elt_le y x) eqn:Hyx; [|done].
    destruct Hne. by apply elt_le_antisym.
Qed.

Lemma elt_lt_le_trans x y z : elt_lt x y → elt_le y z = true → elt_lt x z.
Proof.
  unfold elt_lt. intros Hxy Hyz.
  destruct (elt_le z x) eqn:Hzx; [|done].
  by rewrite (elt_le_trans y z x) in Hxy.
Qed.

Lemma elt_le_lt_trans x y z : elt_le x y = true → elt_lt y z → elt_lt x z.
Proof.
  unfold elt_lt. intros Hxy Hyz.
  destruct (elt_le z x) eqn:Hzx; [|done].
  by rewrite (elt_le_trans z x y) in Hyz.
Qed.

Lemma elt_lt_trans x y z : elt_lt x y → elt_lt y z → elt_lt x z.
Proof. intros Hxy Hyz. eapply elt_lt_le_trans; [done|]. by apply elt_lt_le. Qed.

Lemma elt_eqb_neq x y : elt_eqb x y = false ↔ x ≠ y.
Proof. rewrite <-elt_eqb_eq. by destruct (elt_eqb x y). Qed.

End order.

(** ** Reasoning on chains *)

Section chain_facts.
Context {T : Type} {ops : Element T}.
Implicit Types (h : gmap loc (Node T)) (p q tl : loc) (cells : list (loc * T)).

Lemma links_agree h p q q' : links h p q → links h p q' → q = q'.
Proof. intros (n & Hn & Hq) (n' & Hn' & Hq'). congruence. Qed.

Lemma links_not_tail h p q : links h p q → ¬ is_tail h p.
Proof. intros (n & Hn & Hq) (n' & Hn' & Hq'). congruence. Qed.

Lemma chain_links h p cells tl : chain h p cells tl → ∃ q, links h p q.
Proof. destruct cells as [|c cells]; simpl; [intros [? _]|intros [? _]]; eauto. Qed.

Lemma chain_tail h p cells tl : chain h p cells tl → is_tail h tl.
Proof.
  revert p. induction cells as [|c cells IH]; simpl; intros p.
  - by intros [_ ?].
  - intros (_ & _ & Hc). eauto.
Qed.

Lemma last_of_app p (before after : list (loc * T)) :
  last_of p (before ++ after) = last_of (last_of p before) after.
Proof. revert p. induction before as [|c before IH]; simpl; eauto. Qed.

Lemma last_of_elem p (before : list (loc * T)) : last_of p before ∈ p :: before.*1.
Proof.
  revert p. induction before as [|c before IH]; intros p; simpl.
  - set_solver.
  - specialize (IH c.1). set_solver.
Qed.

Lemma path_app p (before after : list (loc * T)) tl :
  path p (before ++ after) tl = p :: before.*1 ++ after.*1 ++ [tl].
Proof. unfold path. by rewrite fmap_app, <-app_assoc. Qed.

Lemma chain_allocated h p cells tl l :
  chain h p cells tl → l ∈ path p cells tl → is_Some (h !! l).
Proof.
  unfold path. revert p. induction cells as [|c cells IH]; simpl; intros p.
  - intros [(n & Hn & _) (nt & Hnt & _)] Hl.
    assert (l = p ∨ l = tl) as [-> | ->] by set_solver; eauto.
  - intros ((n & Hn & _) & _ & Hc) Hl.
    apply elem_of_cons in Hl as [-> | Hl]; eauto.
Qed.

(** A chain only depends on the nodes it goes through. *)
Lemma chain_frame h h' p cells tl :
  chain h p cells tl →
  (∀ l, l ∈ path p cells tl → h' !! l = h !! l) →
  chain h' p cells tl.
Proof.
  unfold path. revert p. induction cells as [|c cells IH]; simpl; intros p.
  - intros [(n & Hn & Hq) (nt & Hnt & Hz)] Hsame. split.
    + exists n. rewrite Hsame by set_solver. done.
    + exists nt. rewrite Hsame by set_solver. done.
  - intros ((n & Hn & Hq) & (nc & Hnc & Hx) & Hc) Hsame. split_and!.
    + exists n. rewrite Hsame by set_solver. done.
    + exists nc. rewrite Hsame by set_solver. done.
    + apply IH; [done|]. intros l Hl. apply Hsame. set_solver.
Qed.

(** The rest of a chain, seen from one of its nodes. *)
Lemma chain_app h p before after tl :
  chain h p (before ++ after) tl → chain h (last_of p before) after tl.
Proof.
  revert p. induction before as [|c before IH]; simpl; intros p; [done|].
  intros (_ & _ & Hc). eauto.
Qed.

(** The store is a function: from a given node there is one chain. *)
Lemma chain_functional h p cells cells' tl tl' :
  chain h p cells tl → chain h p cells' tl' → cells = cells' ∧ tl = tl'.
Proof.
  revert p cells'. induction cells as [|c cells IH]; intros p [|c' cells']; simpl.
  - intros [Hl _] [Hl' _]. split; [done|]. by eapply links_agree.
  - intros [Hl Ht] (Hl' & _ & Hc').
    rewrite (links_agree _ _ _ _ Hl Hl') in Ht.
    apply chain_links in Hc' as [q Hq]. by destruct (links_not_tail _ _ _ Hq).
  - intros (Hl & _ & Hc) [Hl' Ht'].
    rewrite (links_agree _ _ _ _ Hl' Hl) in Ht'.
    apply chain_links in Hc as [q Hq]. by destruct (links_not_tail _ _ _ Hq).
  - intros (Hl & (n & Hn & Hx) & Hc) (Hl' & (n' & Hn' & Hx') & Hc').
    pose proof (links_agree _ _ _ _ Hl Hl') as Heq.
    destruct c as [q x], c' as [q' x']; simpl in *. subst q'.
    assert (x = x') as <- by congruence.
    by destruct (IH _ _ Hc Hc') as [-> ->].
Qed.

(** No node of a terminated chain occurs twice on it: the links followed
    from a repeated node would lead back to it for ever. *)
Lemma chain_head_fresh h p cells tl : chain h p cells tl → p ∉ cells.*1 ++ [tl].
Proof.
  intros Hc Hin. apply elem_of_app in Hin as [Hin | Hin].
  - apply list_elem_of_fmap in Hin as (c & Hp & Hin).
    apply list_elem_of_split in Hin as (before & after & ->).
    pose proof Hc as Hc'.
    replace (before ++ c :: after) with ((before ++ [c]) ++ after) in Hc'
      by (by rewrite <-app_assoc).
    apply chain_app in Hc'. rewrite last_of_app in Hc'. simpl in Hc'.
    rewrite <-Hp in Hc'.
    destruct (chain_functional _ _ _ _ _ _ Hc Hc') as [Heq _].
    apply (f_equal length) in Heq. rewrite length_app in Heq. simpl in Heq. lia.
  - apply list_elem_of_singleton in Hin as ->.
    pose proof (chain_tail _ _ _ _ Hc) as Ht.
    apply chain_links in Hc as [q Hq]. by destruct (links_not_tail _ _ _ Hq).
Qed.

Lemma chain_NoDup h p cells tl : chain h p cells tl → NoDup (path p cells tl).
Proof.
  unfold path. revert p. induction cells as [|c cells IH]; intros p Hc.
  - apply NoDup_cons. split; [by apply (chain_head_fresh _ _ _ _ Hc)|].
    apply NoDup_singleton.
  - apply NoDup_cons. split; [by apply (chain_head_fresh _ _ _ _ Hc)|].
    destruct Hc as (_ & _ & Hc). by apply IH.
Qed.

(** ** The traversal *)

(** Started on a chain with enough steps allowed, the loop stops at the
    node before the first cell that is not less than [key]. *)
Lemma find_loop_chain h key fuel p cells tl :
  chain h p cells tl →
  length cells < fuel →
  ∃ before after,
    cells = before ++ after ∧
    stops_at key before after ∧
    find_loop fuel h key p = Ok (last_of p before).
Proof.
  revert p fuel. induction cells as [|c cells IH]; intros p fuel Hc Hfuel;
    (destruct fuel as [|fuel]; [simpl in Hfuel; lia|]).
  - exists [], []. split_and!; [done..|].
    destruct Hc as [(n & Hn & Hq) (nt & Hnt & Hz)]. simpl.
    unfold load. rewrite Hn. simpl. rewrite Hq. simpl. unfold load.
    rewrite Hnt. simpl. unfold is_last. by rewrite Hz.
  - destruct Hc as ((n & Hn & Hq) & (nc & Hnc & Hx) & Hc).
    pose proof (chain_links _ _ _ _ Hc) as (q & nc' & Hnc' & Hq').
    assert (nc' = nc) as -> by congruence.
    destruct (elt_le key c.2) eqn:Hle.
    + exists [], (c :: cells). split_and!; [done..|]. simpl.
      unfold load. rewrite Hn. simpl. rewrite Hq. simpl. unfold load.
      rewrite Hnc. simpl. unfold is_last. rewrite Hq'. by rewrite Hx, Hle.
    + destruct (IH c.1 fuel Hc) as (before & after & -> & [Hb Ha] & Hfind).
      { simpl in Hfuel. lia. }
      exists (c :: before), after. split_and!; [done| |].
      { split; [by apply Forall_cons|done]. }
      simpl. unfold load. rewrite Hn. simpl. rewrite Hq. simpl. unfold load.
      rewrite Hnc. simpl. unfold is_last. rewrite Hq'. by rewrite Hx, Hle.
Qed.

Lemma matches_chain h key pred after tl :
  chain h pred after tl →
  matches h pred key =
    Ok (match after with
        | [] => false
        | c :: _ => elt_eqb c.2 key
        end).
Proof.
  destruct after as [|c after]; simpl.
  - intros [(n & Hn & Hq) (nt & Hnt & Hz)]. unfold matches, load.
    rewrite Hn. simpl. rewrite Hq. simpl. unfold load. rewrite Hnt. simpl.
    unfold is_last. by rewrite Hz.
  - intros ((n & Hn & Hq) & (nc & Hnc & Hx) & Hc).
    pose proof (chain_links _ _ _ _ Hc) as (q & nc' & Hnc' & Hq').
    assert (nc' = nc) as -> by congruence.
    unfold matches, load. rewrite Hn. simpl. rewrite Hq. simpl. unfold load.
    rewrite Hnc. simpl. unfold is_last. rewrite Hq'. simpl. by rewrite Hx.
Qed.

(** ** The store after a splice and after an unlink *)

Lemma destroy_null fuel h : destroy fuel h None = Ok h.
Proof. by destruct fuel. Qed.

Lemma insert_splices fuel s key prev n :
  find_predecessor fuel s key = Ok prev →
  matches (heap s) prev key = Ok false →
  heap s !! prev = Some n →
  let nn := fresh (dom (heap s)) in
  insert fuel s key =
    Ok (true, mkSet (<[prev := mkNode (element n) (Some nn)]>
                       (<[nn := mkNode key (next n)]> (heap s))) (link_ s)).
Proof.
  intros Hfind Hmatch Hn nn. unfold insert. rewrite Hfind. simpl.
  rewrite Hmatch. simpl. fold nn.
  assert (heap s !! nn = None) as Hnn.
  { apply not_elem_of_dom, is_fresh. }
  assert (prev ≠ nn) as Hne by congruence.
  unfold set_element, load. rewrite lookup_insert_eq. simpl.
  unfold release_next, load. rewrite !lookup_insert_ne, Hn by done. simpl.
  unfold reset_next, load. rewrite lookup_insert_ne, lookup_insert_eq by done. simpl.
  rewrite destroy_null. simpl.
  rewrite lookup_insert_ne, lookup_insert_eq by done. simpl.
  rewrite destroy_null. simpl.
  do 3 f_equal. apply map_eq. intros l.
  destruct (decide (l = prev)) as [->|]; [by rewrite !lookup_insert_eq|].
  rewrite !(lookup_insert_ne _ prev) by done.
  destruct (decide (l = nn)) as [->|]; [by rewrite !lookup_insert_eq|].
  by rewrite !lookup_insert_ne by done.
Qed.

Lemma remove_unlinks fuel s key prev n victim nv :
  find_predecessor fuel s key = Ok prev →
  matches (heap s) prev key = Ok true →
  heap s !! prev = Some n →
  next n = Some victim →
  heap s !! victim = Some nv →
  prev ≠ victim →
  0 < fuel →
  remove fuel s key =
    Ok (true, mkSet (delete victim (<[prev := mkNode (element n) (next nv)]> (heap s)))
                    (link_ s)).
Proof.
  intros Hfind Hmatch Hn Hv Hnv Hne Hfuel. unfold remove. rewrite Hfind. simpl.
  rewrite Hmatch. simpl. unfold load. rewrite Hn. simpl. rewrite Hv. simpl.
  unfold load. rewrite Hnv. simpl.
  unfold release_next, load. rewrite Hnv. simpl.
  unfold reset_next, load. rewrite lookup_insert_ne, Hn by done. simpl.
  rewrite Hv. destruct fuel as [|fuel]; [lia|]. simpl.
  unfold load. rewrite lookup_insert_ne, lookup_insert_eq by done. simpl.
  rewrite destroy_null. simpl.
  do 3 f_equal. apply map_eq. intros l.
  destruct (decide (l = victim)) as [->|]; [by rewrite !lookup_delete_eq|].
  rewrite !(lookup_delete_ne _ victim) by done.
  destruct (decide (l = prev)) as [->|]; [by rewrite !lookup_insert_eq|].
  by rewrite !lookup_insert_ne by done.
Qed.

(** A node that has taken over the link of the first node of a chain
    starts the same chain. *)
Lemma chain_rehead h h' p p' n n' cells tl :
  chain h p cells tl →
  h !! p = Some n →
  h' !! p' = Some n' →
  next n' = next n →
  (∀ l, l ∈ cells.*1 ++ [tl] → h' !! l = h !! l) →
  chain h' p' cells tl.
Proof.
  intros Hc Hn Hn' Hnext Hsame. destruct cells as [|c cells]; simpl in *.
  - destruct Hc as [(n0 & Hn0 & Hq) (nt & Hnt & Hz)]. split.
    + exists n'. split; [done|]. congruence.
    + exists nt. rewrite Hsame by set_solver. done.
  - destruct Hc as ((n0 & Hn0 & Hq) & (nc & Hnc & Hx) & Hc). split_and!.
    + exists n'. split; [done|]. congruence.
    + exists nc. rewrite Hsame by set_solver. done.
    + eapply chain_frame; [done|]. intros l Hl. apply Hsame.
      unfold path in Hl. set_solver.
Qed.

Lemma chain_splice h p before after tl n nn key :
  chain h p (before ++ after) tl →
  h !! last_of p before = Some n →
  h !! nn = None →
  chain (<[last_of p before := mkNode (element n) (Some nn)]>
           (<[nn := mkNode key (next n)]> h))
        p (before ++ (nn, key) :: after) tl.
Proof.
  intros Hc Hn Hnn. revert p Hc Hn.
  induction before as [|c before IH]; intros p Hc Hn; simpl in *.
  - assert (p ≠ nn) as Hne by congruence. split_and!.
    + eexists. by rewrite lookup_insert_eq.
    + eexists. by rewrite lookup_insert_ne, lookup_insert_eq.
    + apply (chain_rehead h _ p nn n (mkNode key (next n))); [done..| |done|].
      { by rewrite lookup_insert_ne, lookup_insert_eq. }
      intros l Hl.
      assert (l ≠ p).
      { intros ->. by apply (chain_head_fresh _ _ _ _ Hc). }
      assert (l ≠ nn).
      { intros ->. destruct (chain_allocated _ _ _ _ nn Hc) as [? ?]; [|congruence].
        unfold path. set_solver. }
      by rewrite !lookup_insert_ne.
  - pose proof (chain_head_fresh h p (c :: before ++ after) tl Hc) as Hfresh.
    destruct Hc as ((np & Hnp & Hq) & (nc & Hnc & Hx) & Hc).
    pose proof (last_of_elem c.1 before) as Hlast.
    assert (p ≠ last_of c.1 before) as Hne.
    { intros Heq. apply Hfresh. rewrite Heq. simpl. rewrite fmap_app. set_solver. }
    assert (p ≠ nn) by congruence.
    assert (c.1 ≠ nn) by congruence.
    split_and!.
    + exists np. by rewrite !lookup_insert_ne.
    + destruct (decide (c.1 = last_of c.1 before)) as [Heq|].
      * rewrite <-Heq in *. eexists. rewrite lookup_insert_eq. split; [done|].
        simpl. congruence.
      * exists nc. by rewrite !lookup_insert_ne.
    + by apply IH.
Qed.

Lemma chain_unlink h p before v x after tl n nv :
  chain h p (before ++ (v, x) :: after) tl →
  h !! last_of p before = Some n →
  h !! v = Some nv →
  chain (delete v (<[last_of p before := mkNode (element n) (next nv)]> h))
        p (before ++ after) tl.
Proof.
  intros Hc Hn Hnv. revert p Hc Hn.
  induction before as [|c before IH]; intros p Hc Hn; simpl in *.
  - pose proof (chain_head_fresh h p ((v, x) :: after) tl Hc) as Hfresh.
    simpl in Hfresh. destruct Hc as (_ & _ & Hc).
    pose proof (chain_head_fresh _ _ _ _ Hc) as Hfresh'.
    assert (p ≠ v) by set_solver.
    apply (chain_rehead h _ v p nv (mkNode (element n) (next nv))); [done..| |done|].
    { by rewrite lookup_delete_ne, lookup_insert_eq. }
    intros l Hl.
    assert (l ≠ p) by set_solver.
    assert (l ≠ v) by set_solver.
    by rewrite lookup_delete_ne, lookup_insert_ne.
  - pose proof (chain_head_fresh h p (c :: before ++ (v, x) :: after) tl Hc) as Hfresh.
    destruct Hc as ((np & Hnp & Hq) & (nc & Hnc & Hx) & Hc).
    pose proof (chain_head_fresh _ _ _ _ Hc) as Hfresh'.
    pose proof (last_of_elem c.1 before) as Hlast.
    simpl in Hfresh. rewrite fmap_app in Hfresh, Hfresh'. simpl in Hfresh, Hfresh'.
    assert (p ≠ last_of c.1 before) as Hne.
    { intros Heq. apply Hfresh. rewrite Heq. set_solver. }
    assert (p ≠ v) by set_solver.
    assert (c.1 ≠ v) by set_solver.
    split_and!.
    + exists np. by rewrite lookup_delete_ne, lookup_insert_ne.
    + destruct (decide (c.1 = last_of c.1 before)) as [Heq|].
      * rewrite <-Heq in *. eexists. rewrite lookup_delete_ne, lookup_insert_eq by done.
        split; [done|]. simpl. congruence.
      * exists nc. by rewrite lookup_delete_ne, lookup_insert_ne.
    + by apply IH.
Qed.

End chain_facts.

(** ** Ascending chains *)

Section ascending_facts.
Context {T : Type} {ops : Element T} {ord : ElementOrder T}.
Implicit Types (cells before after : list (loc * T)) (key : T).

Lemma ascending_member key before after :
  ascending (before ++ after) →
  stops_at key before after →
  key ∈ (before ++ after).*2 ↔ ∃ c after', after = c :: after' ∧ c.2 = key.
Proof.
  unfold ascending. rewrite fmap_app. intros Hs [Hb Ha]. split.
  - intros Hin. apply elem_of_app in Hin as [Hin | Hin].
    + apply list_elem_of_fmap in Hin as (c & -> & Hin).
      rewrite Forall_forall in Hb. by destruct (elt_lt_irrefl c.2); apply Hb.
    + destruct after as [|c after']; [by apply elem_of_nil in Hin|].
      exists c, after'. split; [done|].
      rewrite fmap_cons in Hin. apply elem_of_cons in Hin as [-> | Hin]; [done|].
      apply StronglySorted_app_1_r, StronglySorted_cons in Hs as [Hs _].
      rewrite Forall_forall in Hs. specialize (Hs _ Hin).
      unfold elt_lt in Hs. congruence.
  - intros (c & after' & -> & <-). rewrite fmap_cons. set_solver.
Qed.

Lemma ascending_splice key before after nn :
  ascending (before ++ after) →
  stops_at key before after →
  key ∉ (before ++ after).*2 →
  ascending (before ++ (nn, key) :: after).
Proof.
  unfold ascending. rewrite !fmap_app, fmap_cons. simpl.
  intros Hs [Hb Ha] Hnotin. apply StronglySorted_app in Hs as (Hba & Hsb & Hsa).
  apply StronglySorted_app. split_and!; [|done|].
  - intros x1 x2 Hx1 Hx2. apply elem_of_cons in Hx2 as [-> | Hx2]; [|by apply Hba].
    apply list_elem_of_fmap in Hx1 as (c & -> & Hin).
    rewrite Forall_forall in Hb. by apply Hb.
  - apply StronglySorted_cons. split; [|done].
    destruct after as [|c after']; [by apply Forall_nil|].
    assert (elt_lt key c.2) as Hlt.
    { apply elt_lt_alt. split; [done|]. intros ->. apply Hnotin.
      rewrite fmap_cons. set_solver. }
    rewrite fmap_cons in *. apply Forall_cons. split; [done|].
    apply StronglySorted_cons in Hsa as [Hsa _].
    eapply Forall_impl; [exact Hsa|]. intros x Hx. by eapply elt_lt_trans.
Qed.

Lemma ascending_unlink before c after :
  ascending (before ++ c :: after) → ascending (before ++ after).
Proof.
  unfold ascending. rewrite !fmap_app, fmap_cons.
  intros (Hba & Hsb & Hsa)%StronglySorted_app.
  apply StronglySorted_cons in Hsa as [_ Hsa].
  apply StronglySorted_app. split_and!; [|done..].
  intros x1 x2 Hx1 Hx2. apply Hba; set_solver.
Qed.

Lemma ascending_NoDup cells : ascending cells → NoDup cells.*2.
Proof.
  unfold ascending. induction 1 as [|x xs Hs IH Hx]; [by apply NoDup_nil|].
  apply NoDup_cons. split; [|done].
  intros Hin. rewrite Forall_forall in Hx. by destruct (elt_lt_irrefl x); apply Hx.
Qed.

End ascending_facts.

(** ** The operations on a represented set *)

Section operations.
Context {T : Type} {ops : Element T}.
Implicit Types (s : List_set T) (hd tl : loc) (cells before after : list (loc * T)).
Implicit Types (key : T).

Lemma path_length hd cells tl : length (path hd cells tl) = length cells + 2.
Proof. unfold path. simpl. rewrite length_app, length_fmap. simpl. lia. Qed.

(** The chain is made of allocated nodes, all different: the store has at
    least that many nodes. *)
Lemma list_repr_size s hd cells tl :
  list_repr s hd cells tl → length cells + 2 ≤ size (heap s).
Proof.
  intros [_ Hc Hnd]. rewrite <-path_length with (hd := hd) (tl := tl).
  rewrite <-(size_dom (D := gset loc)).
  change (size (dom (heap s))) with (length (elements (dom (heap s)))).
  apply submseteq_length, NoDup_submseteq; [done|].
  intros l Hl. apply elem_of_elements, elem_of_dom. by eapply chain_allocated.
Qed.

Lemma list_repr_functional s hd hd' cells cells' tl tl' :
  list_repr s hd cells tl → list_repr s hd' cells' tl' →
  hd = hd' ∧ cells = cells' ∧ tl = tl'.
Proof.
  intros [Hh Hc _] [Hh' Hc' _]. assert (hd' = hd) as -> by congruence.
  split; [done|]. by eapply chain_functional.
Qed.

Lemma find_predecessor_repr fuel s key hd cells tl :
  list_repr s hd cells tl →
  length cells < fuel →
  ∃ before after,
    cells = before ++ after ∧
    stops_at key before after ∧
    find_predecessor fuel s key = Ok (last_of hd before) ∧
    chain (heap s) (last_of hd before) after tl.
Proof.
  intros [Hh Hc _] Hfuel.
  destruct (find_loop_chain _ key _ _ _ _ Hc Hfuel) as (before & after & -> & Hst & Hf).
  exists before, after. split_and!; [done..| |by apply chain_app].
  unfold find_predecessor. rewrite Hh. simpl.
  destruct (chain_links _ _ _ _ Hc) as (q & n & Hn & _).
  unfold load. by rewrite Hn.
Qed.

End operations.

Section operations_ordered.
Context {T : Type} {ops : Element T} {ord : ElementOrder T}.
Implicit Types (s : List_set T) (hd tl : loc) (cells before after : list (loc * T)).
Implicit Types (key : T).

(** [find_predecessor] followed by [matches], as every operation starts. *)
Lemma locate fuel s key hd cells tl :
  list_repr s hd cells tl →
  ascending cells →
  length cells < fuel →
  ∃ before after b,
    cells = before ++ after ∧
    stops_at key before after ∧
    find_predecessor fuel s key = Ok (last_of hd before) ∧
    chain (heap s) (last_of hd before) after tl ∧
    matches (heap s) (last_of hd before) key = Ok b ∧
    (b = true ↔ key ∈ cells.*2) ∧
    (b = true → ∃ v after', after = (v, key) :: after').
Proof.
  intros Hr Hs Hfuel.
  destruct (find_predecessor_repr fuel s key _ _ _ Hr Hfuel)
    as (before & after & -> & Hst & Hf & Hc).
  exists before, after. eexists. split_and!; [done..|by eapply matches_chain| |].
  - rewrite (ascending_member key before after Hs Hst).
    destruct after as [|c after].
    + split; [done|]. by intros (? & ? & ? & _).
    + rewrite elt_eqb_eq. split; [by eauto|]. by intros (c' & a' & [= <- <-] & ?).
  - destruct after as [|[v x] after]; [done|]. simpl.
    rewrite elt_eqb_eq. intros ->. eauto.
Qed.

Lemma member_repr fuel s key hd cells tl :
  list_repr s hd cells tl →
  ascending cells →
  length cells < fuel →
  ∃ b, member fuel s key = Ok b ∧ (b = true ↔ key ∈ cells.*2).
Proof.
  intros Hr Hs Hfuel.
  destruct (locate fuel s key _ _ _ Hr Hs Hfuel)
    as (before & after & b & _ & _ & Hf & _ & Hm & Hb & _).
  exists b. split; [|done]. unfold member. by rewrite Hf.
Qed.

Lemma insert_present fuel s key hd cells tl :
  list_repr s hd cells tl →
  ascending cells →
  length cells < fuel →
  key ∈ cells.*2 →
  insert fuel s key = Ok (false, s).
Proof.
  intros Hr Hs Hfuel Hin.
  destruct (locate fuel s key _ _ _ Hr Hs Hfuel)
    as (before & after & b & _ & _ & Hf & _ & Hm & Hb & _).
  apply Hb in Hin as ->. unfold insert. rewrite Hf. simpl. by rewrite Hm.
Qed.

Lemma remove_absent fuel s key hd cells tl :
  list_repr s hd cells tl →
  ascending cells →
  length cells < fuel →
  key ∉ cells.*2 →
  remove fuel s key = Ok (false, s).
Proof.
  intros Hr Hs Hfuel Hin.
  destruct (locate fuel s key _ _ _ Hr Hs Hfuel)
    as (before & after & b & _ & _ & Hf & _ & Hm & Hb & _).
  destruct b; [by destruct Hin; apply Hb|].
  unfold remove. rewrite Hf. simpl. by rewrite Hm.
Qed.

Lemma insert_absent fuel s key hd cells tl :
  list_repr s hd cells tl →
  ascending cells →
  length cells < fuel →
  key ∉ cells.*2 →
  ∃ before after n,
    cells = before ++ after ∧
    stops_at key before after ∧
    find_predecessor fuel s key = Ok (last_of hd before) ∧
    heap s !! last_of hd before = Some n ∧
    let nn := fresh (dom (heap s)) in
    let s' := mkSet (<[last_of hd before := mkNode (element n) (Some nn)]>
                       (<[nn := mkNode key (next n)]> (heap s))) (link_ s) in
    heap s !! nn = None ∧
    insert fuel s key = Ok (true, s') ∧
    list_repr s' hd (before ++ (nn, key) :: after) tl ∧
    ascending (before ++ (nn, key) :: after).
Proof.
  intros Hr Hs Hfuel Hin.
  destruct (locate fuel s key _ _ _ Hr Hs Hfuel)
    as (before & after & b & -> & Hst & Hf & Hc & Hm & Hb & _).
  destruct b; [by destruct Hin; apply Hb|].
  destruct (chain_links _ _ _ _ Hc) as (q & n & Hn & Hq).
  exists before, after, n. split_and!; [done..|]. intros nn s'.
  assert (heap s !! nn = None) as Hnn by apply not_elem_of_dom, is_fresh.
  destruct Hr as [Hh Hch _].
  assert (chain (heap s') hd (before ++ (nn, key) :: after) tl) as Hch'.
  { by apply chain_splice. }
  split_and!; [done|by apply insert_splices| |by apply ascending_splice].
  split; [done..|]. by eapply chain_NoDup.
Qed.

Lemma remove_present fuel s key hd cells tl :
  list_repr s hd cells tl →
  ascending cells →
  length cells < fuel →
  key ∈ cells.*2 →
  ∃ before victim after n nv,
    cells = before ++ (victim, key) :: after ∧
    stops_at key before ((victim, key) :: after) ∧
    find_predecessor fuel s key = Ok (last_of hd before) ∧
    heap s !! last_of hd before = Some n ∧
    next n = Some victim ∧
    heap s !! victim = Some nv ∧
    let s' := mkSet (delete victim
                       (<[last_of hd before := mkNode (element n) (next nv)]> (heap s)))
                    (link_ s) in
    remove fuel s key = Ok (true, s') ∧
    list_repr s' hd (before ++ after) tl ∧
    ascending (before ++ after).
Proof.
  intros Hr Hs Hfuel Hin.
  destruct (locate fuel s key _ _ _ Hr Hs Hfuel)
    as (before & after0 & b & -> & Hst & Hf & Hc & Hm & Hb & Hv).
  apply Hb in Hin as ->. destruct Hv as (victim & after & ->); [done|].
  pose proof (chain_head_fresh _ _ _ _ Hc) as Hfresh.
  destruct Hc as ((n & Hn & Hq) & (nv & Hnv & Hx) & Hc).
  exists before, victim, after, n, nv. split_and!; [done..|]. intros s'.
  destruct Hr as [Hh Hch _].
  assert (chain (heap s') hd (before ++ after) tl) as Hch'.
  { by eapply chain_unlink. }
  split_and!; [| |by eapply ascending_unlink].
  - apply remove_unlinks with (n := n) (nv := nv); [done..| |lia].
    intros Heq. apply Hfresh. rewrite Heq. simpl. set_solver.
  - split; [done..|]. by eapply chain_NoDup.
Qed.

End operations_ordered.

(** ** The concrete objects *)

Ltac by_computation := vm_compute; reflexivity.

Lemma example_set_built :
  (s0 ← List_set_new;
   '(_, s1) ← insert 4 s0 5%Z;
   '(_, s2) ← insert 4 s1 3%Z;
   '(_, s3) ← insert 4 s2 8%Z;
   Ok s3) = Ok example_set.
Proof. by_computation. Qed.

Lemma example_set_repr : list_repr example_set 2%positive example_cells 1%positive.
Proof.
  split.
  - reflexivity.
  - simpl. unfold links, holds, is_tail.
    repeat split; eexists; (split; [by_computation|reflexivity]).
  - apply (bool_decide_unpack _). by_computation.
Defined.

Lemma example_cells_ascending : ascending example_cells.
Proof. apply (bool_decide_unpack _). by_computation. Defined.

(** ** Results that need no order on the elements *)

Section returns.
Context {T : Type} {ops : Element T}.
Implicit Types (s : List_set T) (hd tl : loc) (cells before after : list (loc * T)).
Implicit Types (key : T).

(** More steps allowed never change the result of the traversal. *)
Lemma find_loop_mono h key fuel fuel' p r :
  find_loop fuel h key p = Ok r → fuel ≤ fuel' → find_loop fuel' h key p = Ok r.
Proof.
  revert fuel' p. induction fuel as [|fuel IH]; intros fuel' p Hf Hle; [done|].
  destruct fuel' as [|fuel']; [lia|]. simpl in *.
  destruct (load h p) as [n| |]; simpl in *; try done.
  destruct (deref h (next n)) as [sn| |]; simpl in *; try done.
  destruct (is_last sn); [done|]. destruct (elt_le key (element sn)); [done|].
  destruct (address h (next n)) as [q| |]; simpl in *; try done.
  apply IH; [done|lia].
Qed.

Lemma find_predecessor_mono fuel fuel' s key r :
  find_predecessor fuel s key = Ok r → fuel ≤ fuel' →
  find_predecessor fuel' s key = Ok r.
Proof.
  unfold find_predecessor. destruct (address (heap s) (link_ s)); simpl; try done.
  apply find_loop_mono.
Qed.

(** On a chain, whatever the elements are, every operation returns. *)
Lemma operations_return fuel s key hd cells tl :
  list_repr s hd cells tl →
  length cells < fuel →
  ∃ prev n succ ns b,
    find_predecessor fuel s key = Ok prev ∧
    prev ∈ hd :: cells.*1 ∧
    prev ≠ tl ∧
    heap s !! prev = Some n ∧
    next n = Some succ ∧
    heap s !! succ = Some ns ∧
    matches (heap s) prev key = Ok b ∧
    (∃ r, insert fuel s key = Ok r) ∧
    (∃ r, remove fuel s key = Ok r).
Proof.
  intros Hr Hfuel.
  destruct (find_predecessor_repr fuel s key _ _ _ Hr Hfuel)
    as (before & after & -> & Hst & Hf & Hc).
  pose proof (matches_chain _ key _ _ _ Hc) as Hm.
  destruct (chain_links _ _ _ _ Hc) as (succ & n & Hn & Hq).
  destruct (chain_allocated _ _ _ _ succ Hc) as [ns Hns].
  { unfold path. destruct after as [|c after]; simpl in Hc.
    - destruct Hc as [Hl _].
      rewrite (links_agree _ _ _ _ (ex_intro _ n (conj Hn Hq)) Hl). set_solver.
    - destruct Hc as [Hl _].
      rewrite (links_agree _ _ _ _ (ex_intro _ n (conj Hn Hq)) Hl). set_solver. }
  exists (last_of hd before), n, succ, ns. eexists.
  split_and!; [done| | |done..| |].
  - pose proof (last_of_elem hd before). rewrite fmap_app. set_solver.
  - intros Heq. apply (links_not_tail (heap s) tl succ).
    + rewrite <-Heq. by exists n.
    + by eapply chain_tail.
  - destruct after as [|c after].
    + eexists. by eapply insert_splices.
    + destruct (elt_eqb c.2 key) eqn:Heqb.
      * eexists. unfold insert. rewrite Hf. simpl. by rewrite Hm.
      * eexists. by eapply insert_splices.
  - destruct after as [|c after].
    + eexists. unfold remove. rewrite Hf. simpl. by rewrite Hm.
    + destruct (elt_eqb c.2 key) eqn:Heqb.
      * pose proof (chain_head_fresh _ _ _ _ Hc) as Hfresh.
        destruct Hc as (Hl & (nv & Hnv & _) & _).
        pose proof (links_agree _ _ _ _ (ex_intro _ n (conj Hn Hq)) Hl) as ->.
        eexists. eapply remove_unlinks; [done..| |lia].
        intros Heq. apply Hfresh. rewrite Heq. simpl. set_solver.
      * eexists. unfold remove. rewrite Hf. simpl. by rewrite Hm.
Qed.

End returns.

(** * The claims of the specification *)

Section claims.
Context {T : Type} {ops : Element T} {ord : ElementOrder T}.
Implicit Types (s : List_set T) (hd tl : loc) (cells before after : list (loc * T)).
Implicit Types (key : T).

Lemma elements_decide fuel s key hd cells tl :
  list_repr s hd cells tl → ascending cells → length cells < fuel →
  key ∈ cells.*2 ∨ key ∉ cells.*2.
Proof.
  intros Hr Hs Hfuel.
  destruct (locate fuel s key _ _ _ Hr Hs Hfuel) as (_ & _ & b & _ & _ & _ & _ & _ & Hb & _).
  destruct b; [left; by apply Hb|right]. intros Hin. by apply Hb in Hin.
Qed.

(** C1: without interference, every call of [member], [insert] or [remove]
    on a set whose chain from the head sentinel to the tail sentinel is
    strictly ascending, acyclic and made of distinct nodes returns, and
    the chain of the object after the call has the same properties. *)
Theorem invariant_preserved fuel (o : operation T) s :
  well_formed s →
  size (heap s) ≤ fuel →
  ∃ b s', call fuel o s = Ok (b, s') ∧ well_formed s'.
Proof.
  intros (hd & cells & tl & Hr & Hs) Hsize.
  pose proof (list_repr_size _ _ _ _ Hr) as Hlen.
  assert (length cells < fuel) as Hfuel by lia.
  destruct o as [key|key|key]; simpl.
  - destruct (member_repr fuel s key _ _ _ Hr Hs Hfuel) as (b & -> & _).
    exists b, s. split; [done|]. by exists hd, cells, tl.
  - destruct (elements_decide fuel s key _ _ _ Hr Hs Hfuel) as [Hin | Hin].
    + exists false, s. split; [by eapply insert_present|]. by exists hd, cells, tl.
    + destruct (insert_absent fuel s key _ _ _ Hr Hs Hfuel Hin)
        as (before & after & n & _ & _ & _ & _ & _ & Hi & Hr' & Hs').
      eexists _, _. split; [exact Hi|]. by eexists hd, _, tl.
  - destruct (elements_decide fuel s key _ _ _ Hr Hs Hfuel) as [Hin | Hin].
    + destruct (remove_present fuel s key _ _ _ Hr Hs Hfuel Hin)
        as (before & v & after & n & nv & _ & _ & _ & _ & _ & _ & Hi & Hr' & Hs').
      eexists _, _. split; [exact Hi|]. by eexists hd, _, tl.
    + exists false, s. split; [by eapply remove_absent|]. by exists hd, cells, tl.
Qed.

(** C2: on a well-formed sorted list, [member(key)] returns, and it
    returns true exactly when the successor of the node found by
    [find_predecessor(key)] is not the tail sentinel and holds [key];
    that is the case exactly when [key] is an element of the set. *)
Theorem member_iff fuel s key hd cells tl :
  list_repr s hd cells tl →
  ascending cells →
  length cells < fuel →
  ∃ prev n succ ns b,
    find_predecessor fuel s key = Ok prev ∧
    heap s !! prev = Some n ∧
    next n = Some succ ∧
    heap s !! succ = Some ns ∧
    member fuel s key = Ok b ∧
    (b = true ↔ succ ≠ tl ∧ is_last ns = false ∧ element ns = key) ∧
    (b = true ↔ key ∈ cells.*2).
Proof.
  intros Hr Hs Hfuel.
  destruct (locate fuel s key _ _ _ Hr Hs Hfuel)
    as (before & after & b & -> & Hst & Hf & Hc & Hm & Hb & Hv).
  pose proof (chain_head_fresh _ _ _ _ Hc) as Hfresh.
  pose proof (matches_chain _ key _ _ _ Hc) as Hm'.
  destruct after as [|c after]; simpl in Hc.
  - destruct Hc as [(n & Hn & Hq) (nt & Hnt & Hz)].
    exists (last_of hd before), n, tl, nt, b.
    split_and!; [done..|by unfold member; rewrite Hf| |done].
    assert (b = false) as -> by congruence. by split; [|intros [? _]].
  - destruct Hc as ((n & Hn & Hq) & (nc & Hnc & Hx) & Hc).
    destruct (chain_links _ _ _ _ Hc) as (q & nc' & Hnc' & Hq').
    assert (nc' = nc) as -> by congruence.
    exists (last_of hd before), n, c.1, nc, b.
    split_and!; [done..|by unfold member; rewrite Hf| |done].
    assert (b = elt_eqb c.2 key) as -> by congruence.
    rewrite elt_eqb_eq, Hx. unfold is_last. rewrite Hq'. split; [|by intros (_ & _ & ?)].
    intros Heq. split_and!; [|done..].
    intros Htl. pose proof (chain_head_fresh _ _ _ _ Hc) as Hfresh'.
    apply Hfresh'. rewrite Htl. set_solver.
Qed.

(** C3: [insert(key)] returns false and leaves the object as it is when
    [key] is present.  Otherwise it returns true, and the store after it
    is the store before with one new node, holding [key] and linked to
    the successor of the node found by [find_predecessor(key)], to which
    that node now links; the elements are then the old ones and [key]. *)
Theorem insert_spec fuel s key hd cells tl :
  list_repr s hd cells tl →
  ascending cells →
  length cells < fuel →
  (key ∈ cells.*2 → insert fuel s key = Ok (false, s)) ∧
  (key ∉ cells.*2 →
   ∃ prev n succ nn s' cells',
     find_predecessor fuel s key = Ok prev ∧
     heap s !! prev = Some n ∧
     next n = Some succ ∧
     heap s !! nn = None ∧
     insert fuel s key = Ok (true, s') ∧
     link_ s' = link_ s ∧
     heap s' = <[prev := mkNode (element n) (Some nn)]>
                 (<[nn := mkNode key (Some succ)]> (heap s)) ∧
     list_repr s' hd cells' tl ∧
     ascending cells' ∧
     ∀ x, x ∈ cells'.*2 ↔ x ∈ cells.*2 ∨ x = key).
Proof.
  intros Hr Hs Hfuel. split; [by eapply insert_present|]. intros Hin.
  destruct (insert_absent fuel s key _ _ _ Hr Hs Hfuel Hin)
    as (before & after & n & -> & Hst & Hf & Hn & Hnn & Hi & Hr' & Hs').
  destruct (operations_return fuel s key _ _ _ Hr Hfuel)
    as (prev & n' & succ & _ & _ & Hf' & _ & _ & Hn' & Hq & _).
  assert (prev = last_of hd before) as -> by congruence.
  assert (n' = n) as -> by congruence.
  rewrite Hq in *.
  eexists _, n, succ, _, _, _. split_and!; [done..|exact Hi|done|done|exact Hr'|exact Hs'|].
  intros x. rewrite !fmap_app, fmap_cons. set_solver.
Qed.

(** C4: [remove(key)] returns false and leaves the object as it is when
    [key] is absent.  Otherwise it returns true, and the store after it
    is the store before without the successor of the node found by
    [find_predecessor(key)], which held [key]; that node has taken the
    link of the node removed; the elements are then the old ones without
    [key]. *)
Theorem remove_spec fuel s key hd cells tl :
  list_repr s hd cells tl →
  ascending cells →
  length cells < fuel →
  (key ∉ cells.*2 → remove fuel s key = Ok (false, s)) ∧
  (key ∈ cells.*2 →
   ∃ prev n victim nv s' cells',
     find_predecessor fuel s key = Ok prev ∧
     heap s !! prev = Some n ∧
     next n = Some victim ∧
     heap s !! victim = Some nv ∧
     element nv = key ∧
     remove fuel s key = Ok (true, s') ∧
     link_ s' = link_ s ∧
     heap s' = delete victim (<[prev := mkNode (element n) (next nv)]> (heap s)) ∧
     list_repr s' hd cells' tl ∧
     ascending cells' ∧
     ∀ x, x ∈ cells'.*2 ↔ x ∈ cells.*2 ∧ x ≠ key).
Proof.
  intros Hr Hs Hfuel. split; [by eapply remove_absent|]. intros Hin.
  destruct (remove_present fuel s key _ _ _ Hr Hs Hfuel Hin)
    as (before & v & after & n & nv & -> & Hst & Hf & Hn & Hq & Hnv & Hi & Hr' & Hs').
  assert (element nv = key) as Hx.
  { destruct Hr as [_ Hc _]. apply chain_app in Hc.
    destruct Hc as (_ & (nv' & Hnv' & Hx) & _). simpl in *. congruence. }
  eexists _, n, v, nv, _, _.
  split_and!; [done..|exact Hi|done|done|exact Hr'|exact Hs'|].
  apply ascending_NoDup in Hs. revert Hs.
  rewrite !fmap_app, fmap_cons. simpl.
  intros (_ & Hba & (Ha & _)%NoDup_cons)%NoDup_app.
  intros x. specialize (Hba x). set_solver.
Qed.

Lemma insert_result fuel s key hd cells tl :
  list_repr s hd cells tl →
  ascending cells →
  length cells < fuel →
  ∃ b s' cells',
    insert fuel s key = Ok (b, s') ∧
    list_repr s' hd cells' tl ∧
    ascending cells' ∧
    key ∈ cells'.*2 ∧
    length cells' ≤ length cells + 1 ∧
    (b = true ↔ key ∉ cells.*2).
Proof.
  intros Hr Hs Hfuel.
  destruct (elements_decide fuel s key _ _ _ Hr Hs Hfuel) as [Hin | Hin].
  - exists false, s, cells. split_and!; [by eapply insert_present|done..|lia|done].
  - destruct (insert_absent fuel s key _ _ _ Hr Hs Hfuel Hin)
      as (before & after & n & -> & _ & _ & _ & _ & Hi & Hr' & Hs').
    eexists true, _, _. split_and!; [exact Hi|exact Hr'|exact Hs'| | |done].
    + rewrite fmap_app, fmap_cons. set_solver.
    + rewrite !length_app. simpl. lia.
Qed.

Lemma remove_result fuel s key hd cells tl :
  list_repr s hd cells tl →
  ascending cells →
  length cells < fuel →
  ∃ b s' cells',
    remove fuel s key = Ok (b, s') ∧
    list_repr s' hd cells' tl ∧
    ascending cells' ∧
    (key ∉ cells'.*2) ∧
    length cells' ≤ length cells ∧
    (b = true ↔ key ∈ cells.*2).
Proof.
  intros Hr Hs Hfuel.
  destruct (elements_decide fuel s key _ _ _ Hr Hs Hfuel) as [Hin | Hin].
  - destruct (remove_present fuel s key _ _ _ Hr Hs Hfuel Hin)
      as (before & v & after & n & nv & -> & _ & _ & _ & _ & _ & Hi & Hr' & Hs').
    eexists true, _, _. split_and!; [exact Hi|exact Hr'|exact Hs'| | |done].
    + apply ascending_NoDup in Hs. revert Hs.
      rewrite !fmap_app, fmap_cons. simpl.
      intros (_ & Hba & (Ha & _)%NoDup_cons)%NoDup_app.
      specialize (Hba key). set_solver.
    + rewrite !length_app. simpl. lia.
  - exists false, s, cells. split_and!; [by eapply remove_absent|done..].
Qed.

(** C6: from any state of the set, and for every key (5 in the
    specification): after [insert], [member] returns true; after [remove],
    [member] returns false and a second [remove] returns false; when the
    key is not in the set, [insert] returns true and a second [insert]
    returns false. *)
Theorem round_trip fuel s key hd cells tl :
  list_repr s hd cells tl →
  ascending cells →
  length cells + 1 < fuel →
  (∃ b s1, insert fuel s key = Ok (b, s1) ∧ member fuel s1 key = Ok true) ∧
  (∃ b s1, remove fuel s key = Ok (b, s1) ∧
           member fuel s1 key = Ok false ∧
           remove fuel s1 key = Ok (false, s1)) ∧
  (key ∉ cells.*2 →
   ∃ s1, insert fuel s key = Ok (true, s1) ∧ insert fuel s1 key = Ok (false, s1)).
Proof.
  intros Hr Hs Hfuel.
  destruct (insert_result fuel s key _ _ _ Hr Hs) as (bi & si & ci & Hi & Hri & Hsi & Hini & Hli & Hbi);
    [lia|].
  destruct (remove_result fuel s key _ _ _ Hr Hs) as (br & sr & cr & Hrm & Hrr & Hsr & Hinr & Hlr & Hbr);
    [lia|].
  split_and!.
  - exists bi, si. split; [done|].
    destruct (member_repr fuel si key _ _ _ Hri Hsi) as (b & -> & Hb); [lia|].
    f_equal. by apply Hb.
  - exists br, sr. split_and!; [done| |].
    + destruct (member_repr fuel sr key _ _ _ Hrr Hsr) as (b & -> & Hb); [lia|].
      f_equal. destruct b; [|done]. destruct Hinr. by apply Hb.
    + eapply remove_absent; [done..|lia|done].
  - intros Hin. exists si. apply Hbi in Hin as ->. split; [done|].
    eapply insert_present; [done..|lia|done].
Qed.

End claims.

Section claims_traversal.
Context {T : Type} {ops : Element T}.
Implicit Types (s : List_set T) (hd tl : loc) (cells before after : list (loc * T)).
Implicit Types (key : T).

(** C5: on a well-formed sorted list, [find_predecessor(key)] returns
    the last node before the first node whose element is not less than
    [key]: the cells from the one after the head up to the node returned
    are all less than [key], and the successor of the node returned is
    the tail sentinel or the first cell that is not less than [key]. *)
Theorem find_predecessor_spec fuel s key hd cells tl :
  list_repr s hd cells tl →
  ascending cells →
  length cells < fuel →
  ∃ before after n succ,
    cells = before ++ after ∧
    find_predecessor fuel s key = Ok (last_of hd before) ∧
    Forall (λ c, elt_lt c.2 key) before ∧
    heap s !! last_of hd before = Some n ∧
    next n = Some succ ∧
    match after with
    | [] => succ = tl
    | c :: _ => succ = c.1 ∧ elt_le key c.2 = true
    end.
Proof.
  intros Hr _ Hfuel.
  destruct (find_predecessor_repr fuel s key _ _ _ Hr Hfuel)
    as (before & after & -> & [Hb Ha] & Hf & Hc).
  destruct (chain_links _ _ _ _ Hc) as (succ & n & Hn & Hq).
  exists before, after, n, succ. split_and!; [done..|].
  assert (links (heap s) (last_of hd before) succ) as Hl by by exists n.
  destruct after as [|c after]; simpl in Hc.
  - destruct Hc as [Hl' _]. by eapply links_agree.
  - destruct Hc as [Hl' _]. split; [by eapply links_agree|done].
Qed.

(** C7: the constructor returns an empty set: the head sentinel links
    directly to the tail sentinel, the two sentinels are the only nodes,
    and [member] returns false for every key. *)
Theorem new_set_empty :
  ∃ (s : List_set T) hd tl,
    List_set_new = Ok s ∧
    link_ s = Some hd ∧
    links (heap s) hd tl ∧
    is_tail (heap s) tl ∧
    list_repr s hd [] tl ∧
    owns_all s hd [] tl ∧
    ∀ fuel key, member (S fuel) s key = Ok false.
Proof.
  unfold List_set_new, new_node.
  set (tl := fresh (dom (∅ : gmap loc (Node T)))).
  set (h1 := <[tl := mkNode elt_default None]> ∅).
  set (hd := fresh (dom h1)).
  assert (hd ≠ tl) as Hne.
  { pose proof (is_fresh (dom h1)) as Hf. fold hd in Hf. unfold h1 in Hf.
    rewrite dom_insert_L in Hf. set_solver. }
  unfold reset_next, load. rewrite lookup_insert_eq. simpl.
  eexists _, hd, tl. split; [done|]. simpl.
  assert (links (<[hd := mkNode elt_default (Some tl)]>
                   (<[hd := mkNode elt_default None]> h1)) hd tl) as Hl.
  { eexists. by rewrite lookup_insert_eq. }
  assert (is_tail (<[hd := mkNode elt_default (Some tl)]>
                     (<[hd := mkNode elt_default None]> h1)) tl) as Ht.
  { eexists. unfold h1. by rewrite !lookup_insert_ne, lookup_insert_eq by done. }
  assert (list_repr (mkSet (<[hd := mkNode elt_default (Some tl)]>
                              (<[hd := mkNode elt_default None]> h1)) (Some hd))
                    hd [] tl) as Hr.
  { split; [done|by split|]. eapply (chain_NoDup _ hd [] tl). by split. }
  split_and!; [done..| |].
  { unfold owns_all, path, h1. simpl. rewrite !dom_insert_L, dom_empty_L. set_solver. }
  intros fuel key.
  destruct (find_predecessor_repr (S fuel) _ key _ _ _ Hr) as (before & after & Heq & _ & Hf & Hc).
  { simpl. lia. }
  symmetry in Heq. apply app_eq_nil in Heq as [-> ->].
  unfold member. rewrite Hf. simpl. by rewrite (matches_chain _ key _ _ _ Hc).
Qed.

(** C8: on a well-formed list, [find_predecessor(key)] terminates: the
    loop stops at any node whose successor is the tail sentinel, whatever
    the key; so the traversal stops at the head sentinel or at one of the
    cells, and it takes no more iterations than there are nodes before
    the tail. *)
Theorem find_predecessor_terminates s key hd cells tl :
  list_repr s hd cells tl →
  (∀ fuel p, links (heap s) p tl → find_loop (S fuel) (heap s) key p = Ok p) ∧
  ∃ prev,
    prev ∈ hd :: cells.*1 ∧
    ∀ fuel, length cells < fuel → find_predecessor fuel s key = Ok prev.
Proof.
  intros Hr. split.
  - intros fuel p (n & Hn & Hq).
    destruct (chain_tail _ _ _ _ (repr_chain _ _ _ _ Hr)) as (nt & Hnt & Hz).
    simpl. unfold load. rewrite Hn. simpl. rewrite Hq. simpl. unfold load.
    rewrite Hnt. simpl. unfold is_last. by rewrite Hz.
  - destruct (operations_return (S (length cells)) s key _ _ _ Hr)
      as (prev & _ & _ & _ & _ & Hf & Hin & _); [lia|].
    exists prev. split; [done|]. intros fuel Hfuel.
    eapply find_predecessor_mono; [done|lia].
Qed.

(** C9: on a well-formed list, [find_predecessor(key)] never returns the
    tail sentinel: the link of the node returned is not null and leads to
    an allocated node, so that [matches], [insert] and [remove] return
    without dereferencing a null link. *)
Theorem no_null_dereference fuel s key hd cells tl :
  list_repr s hd cells tl →
  length cells < fuel →
  ∃ prev n succ ns,
    find_predecessor fuel s key = Ok prev ∧
    prev ≠ tl ∧
    heap s !! prev = Some n ∧
    next n = Some succ ∧
    heap s !! succ = Some ns ∧
    (∃ b, matches (heap s) prev key = Ok b) ∧
    (∃ r, insert fuel s key = Ok r) ∧
    (∃ r, remove fuel s key = Ok r).
Proof.
  intros Hr Hfuel.
  destruct (operations_return fuel s key _ _ _ Hr Hfuel)
    as (prev & n & succ & ns & b & Hf & _ & Hne & Hn & Hq & Hns & Hm & Hi & Hrm).
  exists prev, n, succ, ns. split_and!; [done..|by exists b|done|done].
Qed.

End claims_traversal.

(** ** Ownership

    Beside the claims: no call leaks a node.  When every node of the
    store is on the chain before a call, the same holds after it; the
    node that [remove] unlinks is deleted. *)

Section ownership.
Context {T : Type} {ops : Element T} {ord : ElementOrder T}.
Implicit Types (s : List_set T) (hd tl : loc) (cells before after : list (loc * T)).

Lemma ownership_preserved fuel (o : operation T) s hd cells tl :
  list_repr s hd cells tl →
  ascending cells →
  owns_all s hd cells tl →
  length cells < fuel →
  ∃ b s' cells',
    call fuel o s = Ok (b, s') ∧
    list_repr s' hd cells' tl ∧
    ascending cells' ∧
    owns_all s' hd cells' tl.
Proof.
  intros Hr Hs Ho Hfuel. unfold owns_all in *. destruct o as [key|key|key]; simpl.
  - destruct (member_repr fuel s key _ _ _ Hr Hs Hfuel) as (b & -> & _).
    by exists b, s, cells.
  - destruct (elements_decide fuel s key _ _ _ Hr Hs Hfuel) as [Hin | Hin].
    + exists false, s, cells. split_and!; [by eapply insert_present|done..].
    + destruct (insert_absent fuel s key _ _ _ Hr Hs Hfuel Hin)
        as (before & after & n & -> & _ & _ & Hn & _ & Hi & Hr' & Hs').
      eexists _, _, _. split_and!; [exact Hi|exact Hr'|exact Hs'|].
      apply (elem_of_dom_2 (D := gset loc)) in Hn.
      generalize dependent (fresh (dom (heap s))). intros nn _ _ _. simpl.
      rewrite !dom_insert_L, Ho. rewrite Ho in Hn. unfold path in *.
      rewrite !fmap_app, fmap_cons in *. simpl. clear -Hn. set_solver.
  - destruct (elements_decide fuel s key _ _ _ Hr Hs Hfuel) as [Hin | Hin].
    + destruct (remove_present fuel s key _ _ _ Hr Hs Hfuel Hin)
        as (before & v & after & n & nv & -> & _ & _ & Hn & _ & _ & Hi & Hr' & Hs').
      eexists _, _, _. split_and!; [exact Hi|exact Hr'|exact Hs'|]. simpl.
      apply (elem_of_dom_2 (D := gset loc)) in Hn.
      pose proof (repr_nodup _ _ _ _ Hr) as Hnd.
      rewrite path_app in Hnd. rewrite fmap_cons in Hnd. simpl in Hnd.
      apply NoDup_cons in Hnd as [Hhd Hnd].
      apply NoDup_app in Hnd as (_ & Hba & Hnd).
      apply NoDup_cons in Hnd as [Hv _].
      rewrite dom_delete_L, dom_insert_L, Ho. rewrite Ho in Hn. unfold path in *.
      rewrite !fmap_app, fmap_cons in *. simpl in *.
      specialize (Hba v). clear -Hn Hhd Hba Hv. set_solver.
    + exists false, s, cells. split_and!; [by eapply remove_absent|done..].
Qed.

End ownership.

(** ** The claims on the concrete objects *)

Lemma example_set_well_formed : well_formed example_set.
Proof.
  exists 2%positive, example_cells, 1%positive.
  split; [apply example_set_repr|apply example_cells_ascending].
Defined.

Lemma invariant_preserved_witness :
  well_formed example_set ∧
  size (heap example_set) ≤ 5 ∧
  ∃ b s', call 5 (Insert 4%Z) example_set = Ok (b, s') ∧ well_formed s'.
Proof.
  assert (size (heap example_set) ≤ 5) as Hsize by (vm_compute; lia).
  split_and!; [apply example_set_well_formed|exact Hsize|].
  exact (invariant_preserved 5 (Insert 4%Z) example_set example_set_well_formed Hsize).
Defined.

Lemma member_iff_witness :
  list_repr example_set 2%positive example_cells 1%positive ∧
  ascending example_cells ∧
  length example_cells < 4 ∧
  ∃ prev n succ ns b,
    find_predecessor 4 example_set 5%Z = Ok prev ∧
    heap example_set !! prev = Some n ∧
    next n = Some succ ∧
    heap example_set !! succ = Some ns ∧
    member 4 example_set 5%Z = Ok b ∧
    (b = true ↔ succ ≠ 1%positive ∧ is_last ns = false ∧ element ns = 5%Z) ∧
    (b = true ↔ 5%Z ∈ example_cells.*2).
Proof.
  assert (length example_cells < 4) as Hfuel by (simpl; lia).
  split_and!; [apply example_set_repr|apply example_cells_ascending|exact Hfuel|].
  exact (member_iff 4 example_set 5%Z _ _ _
           example_set_repr example_cells_ascending Hfuel).
Defined.

Lemma insert_spec_witness :
  list_repr example_set 2%positive example_cells 1%positive ∧
  ascending example_cells ∧
  length example_cells < 4 ∧
  (4%Z ∈ example_cells.*2 → insert 4 example_set 4%Z = Ok (false, example_set)) ∧
  (4%Z ∉ example_cells.*2 →
   ∃ prev n succ nn s' cells',
     find_predecessor 4 example_set 4%Z = Ok prev ∧
     heap example_set !! prev = Some n ∧
     next n = Some succ ∧
     heap example_set !! nn = None ∧
     insert 4 example_set 4%Z = Ok (true, s') ∧
     link_ s' = link_ example_set ∧
     heap s' = <[prev := mkNode (element n) (Some nn)]>
                 (<[nn := mkNode 4%Z (Some succ)]> (heap example_set)) ∧
     list_repr s' 2%positive cells' 1%positive ∧
     ascending cells' ∧
     ∀ x, x ∈ cells'.*2 ↔ x ∈ example_cells.*2 ∨ x = 4%Z).
Proof.
  assert (length example_cells < 4) as Hfuel by (simpl; lia).
  split_and!; [apply example_set_repr|apply example_cells_ascending|exact Hfuel|..];
    apply (insert_spec 4 example_set 4%Z _ _ _
             example_set_repr example_cells_ascending Hfuel).
Defined.

Lemma remove_spec_witness :
  list_repr example_set 2%positive example_cells 1%positive ∧
  ascending example_cells ∧
  length example_cells < 4 ∧
  (5%Z ∉ example_cells.*2 → remove 4 example_set 5%Z = Ok (false, example_set)) ∧
  (5%Z ∈ example_cells.*2 →
   ∃ prev n victim nv s' cells',
     find_predecessor 4 example_set 5%Z = Ok prev ∧
     heap example_set !! prev = Some n ∧
     next n = Some victim ∧
     heap example_set !! victim = Some nv ∧
     element nv = 5%Z ∧
     remove 4 example_set 5%Z = Ok (true, s') ∧
     link_ s' = link_ example_set ∧
     heap s' = delete victim (<[prev := mkNode (element n) (next nv)]> (heap example_set)) ∧
     list_repr s' 2%positive cells' 1%positive ∧
     ascending cells' ∧
     ∀ x, x ∈ cells'.*2 ↔ x ∈ example_cells.*2 ∧ x ≠ 5%Z).
Proof.
  assert (length example_cells < 4) as Hfuel by (simpl; lia).
  split_and!; [apply example_set_repr|apply example_cells_ascending|exact Hfuel|..];
    apply (remove_spec 4 example_set 5%Z _ _ _
             example_set_repr example_cells_ascending Hfuel).
Defined.

Lemma find_predecessor_spec_witness :
  list_repr example_set 2%positive example_cells 1%positive ∧
  ascending example_cells ∧
  length example_cells < 4 ∧
  ∃ before after n succ,
    example_cells = before ++ after ∧
    find_predecessor 4 example_set 4%Z = Ok (last_of 2%positive before) ∧
    Forall (λ c, elt_lt c.2 4%Z) before ∧
    heap example_set !! last_of 2%positive before = Some n ∧
    next n = Some succ ∧
    match after with
    | [] => succ = 1%positive
    | c :: _ => succ = c.1 ∧ elt_le 4%Z c.2 = true
    end.
Proof.
  assert (length example_cells < 4) as Hfuel by (simpl; lia).
  split_and!; [apply example_set_repr|apply example_cells_ascending|exact Hfuel|].
  exact (find_predecessor_spec 4 example_set 4%Z _ _ _
           example_set_repr example_cells_ascending Hfuel).
Defined.

Lemma round_trip_witness :
  list_repr example_set 2%positive example_cells 1%positive ∧
  ascending example_cells ∧
  length example_cells + 1 < 5 ∧
  (∃ b s1, insert 5 example_set 5%Z = Ok (b, s1) ∧ member 5 s1 5%Z = Ok true) ∧
  (∃ b s1, remove 5 example_set 5%Z = Ok (b, s1) ∧
           member 5 s1 5%Z = Ok false ∧
           remove 5 s1 5%Z = Ok (false, s1)) ∧
  (5%Z ∉ example_cells.*2 →
   ∃ s1, insert 5 example_set 5%Z = Ok (true, s1) ∧ insert 5 s1 5%Z = Ok (false, s1)).
Proof.
  assert (length example_cells + 1 < 5) as Hfuel by (simpl; lia).
  split_and!; [apply example_set_repr|apply example_cells_ascending|exact Hfuel|..];
    apply (round_trip 5 example_set 5%Z _ _ _
             example_set_repr example_cells_ascending Hfuel).
Defined.

Lemma find_predecessor_terminates_witness :
  list_repr example_set 2%positive example_cells 1%positive ∧
  (∀ fuel p, links (heap example_set) p 1%positive →
             find_loop (S fuel) (heap example_set) 9%Z p = Ok p) ∧
  ∃ prev,
    prev ∈ 2%positive :: example_cells.*1 ∧
    ∀ fuel, length example_cells < fuel → find_predecessor fuel example_set 9%Z = Ok prev.
Proof.
  split; [apply example_set_repr|].
  exact (find_predecessor_terminates example_set 9%Z _ _ _ example_set_repr).
Defined.

Lemma no_null_dereference_witness :
  list_repr example_set 2%positive example_cells 1%positive ∧
  length example_cells < 4 ∧
  ∃ prev n succ ns,
    find_predecessor 4 example_set 9%Z = Ok prev ∧
    prev ≠ 1%positive ∧
    heap example_set !! prev = Some n ∧
    next n = Some succ ∧
    heap example_set !! succ = Some ns ∧
    (∃ b, matches (heap example_set) prev 9%Z = Ok b) ∧
    (∃ r, insert 4 example_set 9%Z = Ok r) ∧
    (∃ r, remove 4 example_set 9%Z = Ok r).
Proof.
  assert (length example_cells < 4) as Hfuel by (simpl; lia).
  split_and!; [apply example_set_repr|exact Hfuel|].
  exact (no_null_dereference 4 example_set 9%Z _ _ _ example_set_repr Hfuel).
Defined.

(** The hypothesis of C8 is needed: on the cyclic store the traversal for
    a key greater than every element is still running after any number of
    iterations. *)
Lemma cyclic_set_loops fuel : find_loop fuel (heap cyclic_set) 5%Z 2%positive = Timeout.
Proof. induction fuel as [|fuel IH]; [done|]. simpl. exact IH. Qed.

Lemma cyclic_set_diverges fuel : find_predecessor fuel cyclic_set 5%Z = Timeout.
Proof.
  destruct fuel as [|fuel]; [done|].
  change (find_predecessor (S fuel) cyclic_set 5%Z)
    with (find_loop fuel (heap cyclic_set) 5%Z 2%positive).
  apply cyclic_set_loops.
Qed.

(** The hypothesis of C9 is needed: without a tail sentinel the first test
    of the loop dereferences the null link of the head. *)
Lemma tailless_set_faults fuel key :
  find_predecessor (S fuel) tailless_set key = Fault ∧
  member (S fuel) tailless_set key = Fault.
Proof. split; reflexivity. Qed.

(** The tail sentinel stops the traversal by [is_last], not by its
    element: in the example its element is 0, which is less than 9. *)
Lemma example_set_tail :
  heap example_set !! 1%positive = Some (mkNode 0%Z None) ∧
  elt_le 9%Z 0%Z = false ∧
  find_loop 1 (heap example_set) 9%Z 5%positive = Ok 5%positive.
Proof. split_and!; by_computation. Qed.

(** The fuel bound of the claims is the least one that serves every key:
    a key greater than every element takes one iteration per node before
    the tail. *)
Lemma example_set_fuel :
  find_predecessor 3 example_set 9%Z = Timeout ∧
  find_predecessor 4 example_set 9%Z = Ok 5%positive.
Proof. split; by_computation. Qed.

(** The scenario of the specification: after inserting 5, 3 and 8,
    [member(3)] and [member(8)] hold and [member(1)] does not; [remove(3)]
    returns true, after which [member(3)] is false and a second
    [remove(3)] returns false. *)
Lemma example_scenario :
  member 4 example_set 3%Z = Ok true ∧
  member 4 example_set 8%Z = Ok true ∧
  member 4 example_set 1%Z = Ok false ∧
  ('(b, s1) ← remove 4 example_set 3%Z;
   m ← member 4 s1 3%Z;
   '(b', _) ← remove 4 s1 3%Z;
   Ok (b, m, b')) = Ok (true, false, false).
Proof. split_and!; by_computation. Qed.

(** * Beyond the claims: sequences of calls, lifetime, diagnostics *)

(** ** The reference set *)

Section reference_facts.
Context {T : Type} {ops : Element T} {ord : ElementOrder T}.
Implicit Types (xs ys : list T) (key : T) (o : operation T).

Lemma ref_member_elem key xs : ref_member key xs = true ↔ key ∈ xs.
Proof.
  unfold ref_member. rewrite existsb_exists, list_elem_of_In. split.
  - intros (x & Hin & Heq). apply elt_eqb_eq in Heq. by subst.
  - intros Hin. exists key. split; [done|]. by apply elt_eqb_eq.
Qed.

Lemma ref_member_equiv key xs ys :
  (∀ x, x ∈ xs ↔ x ∈ ys) → ref_member key xs = ref_member key ys.
Proof.
  intros Heq. apply eq_true_iff_eq. by rewrite !ref_member_elem.
Qed.

(** The answer of a call only depends on whether its key is there. *)
Lemma ref_call_answer o xs :
  (ref_call o xs).1 =
    match o with
    | Insert key => negb (ref_member key xs)
    | Member key | Remove key => ref_member key xs
    end.
Proof. destruct o as [key|key|key]; simpl; [done| |done]. by destruct (ref_member key xs). Qed.

Lemma ref_call_elements o xs x :
  x ∈ (ref_call o xs).2 ↔
    match o with
    | Member _ => x ∈ xs
    | Insert key => x ∈ xs ∨ x = key
    | Remove key => x ∈ xs ∧ x ≠ key
    end.
Proof.
  destruct o as [key|key|key]; simpl; [done| |].
  - destruct (ref_member key xs) eqn:Hm; simpl.
    + apply ref_member_elem in Hm. split; [by left|]. by intros [?| ->].
    + rewrite elem_of_cons. tauto.
  - rewrite !list_elem_of_In, filter_In, negb_true_iff, elt_eqb_neq. tauto.
Qed.

End reference_facts.

(** ** One call, then many *)

Section runs.
Context {T : Type} {ops : Element T} {ord : ElementOrder T}.
Implicit Types (s : List_set T) (hd tl : loc) (cells before after : list (loc * T)).
Implicit Types (xs : list T) (key : T) (o : operation T).

#[local] Instance elt_lt_antisym : AntiSymm (=) (elt_lt (T := T)).
Proof.
  intros x y Hxy Hyx. destruct (elt_lt_irrefl x). by eapply elt_lt_trans.
Qed.

(** An ascending chain is determined by the elements on it. *)
Lemma ascending_unique cells cells' :
  ascending cells → ascending cells' →
  (∀ x, x ∈ cells.*2 ↔ x ∈ cells'.*2) →
  cells.*2 = cells'.*2.
Proof.
  intros Hs Hs' Heq. apply (StronglySorted_unique elt_lt); [done..|].
  apply NoDup_Permutation; [by apply ascending_NoDup..|done].
Qed.

Lemma ascending_unlink_elements before victim key after x :
  ascending (before ++ (victim, key) :: after) →
  x ∈ (before ++ after).*2 ↔ x ∈ (before ++ (victim, key) :: after).*2 ∧ x ≠ key.
Proof.
  intros Hs. apply ascending_NoDup in Hs. revert Hs.
  rewrite !fmap_app, fmap_cons. simpl.
  intros (_ & Hba & (Ha & _)%NoDup_cons)%NoDup_app.
  specialize (Hba x). set_solver.
Qed.

(** The constructor, for the proofs below. *)
Lemma new_set_repr :
  ∃ (s : List_set T) hd tl,
    List_set_new = Ok s ∧ list_repr s hd [] tl ∧ owns_all s hd [] tl.
Proof.
  unfold List_set_new, new_node.
  set (tl := fresh (dom (∅ : gmap loc (Node T)))).
  set (h1 := <[tl := mkNode elt_default None]> ∅).
  set (hd := fresh (dom h1)).
  assert (hd ≠ tl) as Hne.
  { pose proof (is_fresh (dom h1)) as Hf. fold hd in Hf. unfold h1 in Hf.
    rewrite dom_insert_L in Hf. set_solver. }
  unfold reset_next, load. rewrite lookup_insert_eq. simpl.
  eexists _, hd, tl. split; [done|]. split.
  - assert (chain (<[hd := mkNode elt_default (Some tl)]>
                     (<[hd := mkNode elt_default None]> h1)) hd [] tl) as Hc.
    { split; eexists.
      - by rewrite lookup_insert_eq.
      - unfold h1. by rewrite !lookup_insert_ne, lookup_insert_eq by done. }
    split; [done..|]. by eapply chain_NoDup.
  - unfold owns_all, path, h1. simpl. rewrite !dom_insert_L, dom_empty_L. set_solver.
Qed.

(** A call does to the object what it does to the reference set. *)
Lemma call_refines fuel o s hd cells tl xs :
  list_repr s hd cells tl →
  ascending cells →
  (∀ x, x ∈ cells.*2 ↔ x ∈ xs) →
  length cells < fuel →
  ∃ s' cells',
    call fuel o s = Ok ((ref_call o xs).1, s') ∧
    list_repr s' hd cells' tl ∧
    ascending cells' ∧
    (∀ x, x ∈ cells'.*2 ↔ x ∈ (ref_call o xs).2) ∧
    length cells' ≤ length cells + 1.
Proof.
  intros Hr Hs Hxs Hfuel.
  setoid_rewrite ref_call_elements. rewrite ref_call_answer.
  destruct o as [key|key|key]; simpl.
  - destruct (member_repr fuel s key _ _ _ Hr Hs Hfuel) as (b & -> & Hb).
    exists s, cells. split_and!; [|done..|lia].
    simpl. do 2 f_equal. apply eq_true_iff_eq. by rewrite Hb, ref_member_elem.
  - destruct (elements_decide fuel s key _ _ _ Hr Hs Hfuel) as [Hin | Hin].
    + exists s, cells. split_and!; [|done..| |lia].
      * rewrite (insert_present fuel s key _ _ _ Hr Hs Hfuel Hin).
        apply Hxs, ref_member_elem in Hin. by rewrite Hin.
      * intros x. rewrite <-Hxs. split; [by left|]. by intros [?| ->].
    + destruct (insert_absent fuel s key _ _ _ Hr Hs Hfuel Hin)
        as (before & after & n & -> & _ & _ & _ & _ & Hi & Hr' & Hs').
      eexists _, _. split_and!; [|exact Hr'|exact Hs'| |].
      * rewrite Hi. assert (ref_member key xs = false) as ->; [|done].
        apply not_true_is_false. by rewrite ref_member_elem, <-Hxs.
      * intros x. rewrite <-Hxs, !fmap_app, fmap_cons. set_solver.
      * rewrite !length_app. simpl. lia.
  - destruct (elements_decide fuel s key _ _ _ Hr Hs Hfuel) as [Hin | Hin].
    + destruct (remove_present fuel s key _ _ _ Hr Hs Hfuel Hin)
        as (before & v & after & n & nv & -> & _ & _ & _ & _ & _ & Hi & Hr' & Hs').
      eexists _, _. split_and!; [|exact Hr'|exact Hs'| |].
      * rewrite Hi. apply Hxs, ref_member_elem in Hin. by rewrite Hin.
      * intros x. rewrite <-Hxs. by apply ascending_unlink_elements.
      * rewrite !length_app. simpl. lia.
    + exists s, cells. split_and!; [|done..| |lia].
      * rewrite (remove_absent fuel s key _ _ _ Hr Hs Hfuel Hin).
        assert (ref_member key xs = false) as ->; [|done].
        apply not_true_is_false. by rewrite ref_member_elem, <-Hxs.
      * intros x. rewrite <-Hxs. split; [|by intros [? _]].
        intros Hx. split; [done|]. by intros ->.
Qed.

Lemma call_refines_owned fuel o s hd cells tl xs :
  list_repr s hd cells tl →
  ascending cells →
  (∀ x, x ∈ cells.*2 ↔ x ∈ xs) →
  length cells < fuel →
  ∃ s' cells',
    call fuel o s = Ok ((ref_call o xs).1, s') ∧
    list_repr s' hd cells' tl ∧
    ascending cells' ∧
    (∀ x, x ∈ cells'.*2 ↔ x ∈ (ref_call o xs).2) ∧
    length cells' ≤ length cells + 1 ∧
    (owns_all s hd cells tl → owns_all s' hd cells' tl).
Proof.
  intros Hr Hs Hxs Hfuel.
  destruct (call_refines fuel o s _ _ _ xs Hr Hs Hxs Hfuel)
    as (s' & cells' & Hc & Hr' & Hs' & Hx' & Hl).
  exists s', cells'. split_and!; [done..|]. intros Ho.
  destruct (ownership_preserved fuel o s _ _ _ Hr Hs Ho Hfuel)
    as (b & s'' & cells'' & Hc' & Hr'' & _ & Ho').
  rewrite Hc in Hc'. injection Hc' as _ <-.
  by destruct (list_repr_functional _ _ _ _ _ _ _ Hr' Hr'') as (_ & -> & _).
Qed.

Lemma run_refines_owned fuel os s hd cells tl xs :
  list_repr s hd cells tl →
  ascending cells →
  (∀ x, x ∈ cells.*2 ↔ x ∈ xs) →
  length cells + length os ≤ fuel →
  ∃ s' cells',
    run fuel os s = Ok ((ref_run os xs).1, s') ∧
    list_repr s' hd cells' tl ∧
    ascending cells' ∧
    (∀ x, x ∈ cells'.*2 ↔ x ∈ (ref_run os xs).2) ∧
    length cells' ≤ length cells + length os ∧
    (owns_all s hd cells tl → owns_all s' hd cells' tl).
Proof.
  revert s cells xs. induction os as [|o os IH]; intros s cells xs Hr Hs Hxs Hfuel.
  - exists s, cells. simpl. split_and!; [done..|lia|done].
  - simpl in Hfuel.
    destruct (call_refines_owned fuel o s _ _ _ xs Hr Hs Hxs)
      as (s1 & cells1 & Hc & Hr1 & Hs1 & Hx1 & Hl1 & Ho1); [lia|].
    simpl. rewrite Hc. simpl. destruct (ref_call o xs) as [b xs1]. simpl in *.
    destruct (IH s1 cells1 xs1 Hr1 Hs1 Hx1)
      as (s2 & cells2 & Hrun & Hr2 & Hs2 & Hx2 & Hl2 & Ho2); [lia|].
    rewrite Hrun. destruct (ref_run os xs1) as [bs xs2]. simpl in *.
    exists s2, cells2. split_and!; [done..|lia|by auto].
Qed.

(** ** The end of the object *)

Lemma dom_foldr_delete (h : gmap loc (Node T)) (l : list loc) :
  dom (foldr delete h l) = dom h ∖ list_to_set l.
Proof.
  induction l as [|p l IH]; simpl; [set_solver|].
  rewrite dom_delete_L, IH. set_solver.
Qed.

(** Destroying the link to the first node of a chain deletes the nodes
    of the chain, the last one first, and nothing else. *)
Lemma destroy_chain fuel (h : gmap loc (Node T)) p cells tl :
  chain h p cells tl →
  length cells + 2 ≤ fuel →
  destroy fuel h (Some p) = Ok (foldr delete h (path p cells tl)).
Proof.
  revert p fuel. induction cells as [|c cells IH]; intros p fuel Hc Hfuel.
  - destruct Hc as [(n & Hn & Hq) (nt & Hnt & Hz)].
    destruct fuel as [|[|fuel]]; [simpl in Hfuel; lia..|].
    simpl. unfold load. rewrite Hn. simpl. rewrite Hq. simpl. unfold load.
    rewrite Hnt. simpl. rewrite Hz. by rewrite destroy_null.
  - destruct Hc as ((n & Hn & Hq) & _ & Hc).
    destruct fuel as [|fuel]; [simpl in Hfuel; lia|]. simpl in Hfuel.
    simpl. unfold load. rewrite Hn. simpl. rewrite Hq.
    rewrite (IH c.1 fuel Hc) by lia. done.
Qed.

Lemma destroy_chain_short fuel (h : gmap loc (Node T)) p cells tl :
  chain h p cells tl →
  fuel < length cells + 2 →
  destroy fuel h (Some p) = Timeout.
Proof.
  revert p fuel. induction cells as [|c cells IH]; intros p fuel Hc Hfuel.
  - destruct Hc as [(n & Hn & Hq) _].
    destruct fuel as [|[|fuel]]; [done| |simpl in Hfuel; lia].
    simpl. unfold load. rewrite Hn. simpl. by rewrite Hq.
  - destruct Hc as ((n & Hn & Hq) & _ & Hc).
    destruct fuel as [|fuel]; [done|]. simpl in Hfuel.
    simpl. unfold load. rewrite Hn. simpl. rewrite Hq.
    by rewrite (IH c.1 fuel Hc) by lia.
Qed.

Lemma foldr_delete_owned s hd cells tl :
  owns_all s hd cells tl → foldr delete (heap s) (path hd cells tl) = ∅.
Proof.
  intros Ho. apply (dom_empty_inv_L (D := gset loc)).
  rewrite dom_foldr_delete, Ho. set_solver.
Qed.

(** X1: whatever calls are made on a new set, each returns, and returns
    what the call returns on the reference set started empty; the object
    at the end is well formed. *)
Theorem run_from_new_set fuel (os : list (operation T)) :
  length os ≤ fuel →
  ∃ s0 s',
    List_set_new = Ok s0 ∧
    run fuel os s0 = Ok ((ref_run os []).1, s') ∧
    well_formed s'.
Proof.
  intros Hfuel. destruct new_set_repr as (s0 & hd & tl & Hnew & Hr & _).
  destruct (run_refines_owned fuel os s0 hd [] tl [] Hr)
    as (s' & cells' & Hrun & Hr' & Hs' & _); [by apply SSorted_nil|done|simpl; lia|].
  exists s0, s'. split_and!; [done..|]. by exists hd, cells', tl.
Qed.

(** X2: on any well-formed object, a sequence of calls returns what it
    returns on the reference set started with the elements of the object,
    and the elements at the end are those of the reference set. *)
Theorem run_refines fuel (os : list (operation T)) s hd cells tl :
  list_repr s hd cells tl →
  ascending cells →
  length cells + length os ≤ fuel →
  ∃ s' cells',
    run fuel os s = Ok ((ref_run os cells.*2).1, s') ∧
    list_repr s' hd cells' tl ∧
    ascending cells' ∧
    ∀ x, x ∈ cells'.*2 ↔ x ∈ (ref_run os cells.*2).2.
Proof.
  intros Hr Hs Hfuel.
  destruct (run_refines_owned fuel os s hd cells tl cells.*2 Hr Hs)
    as (s' & cells' & Hrun & Hr' & Hs' & Hx' & _); [done..|].
  by exists s', cells'.
Qed.

(** X3: an object on which every node is on the chain is destroyed
    without a leak: the destructor leaves no node in the store.  It nests
    one call per node, sentinels included: allowed that depth it returns,
    allowed less it does not. *)
Theorem destructor_frees_all fuel s hd cells tl :
  list_repr s hd cells tl →
  owns_all s hd cells tl →
  (length cells + 2 ≤ fuel → List_set_delete fuel s = Ok ∅) ∧
  (fuel < length cells + 2 → List_set_delete fuel s = Timeout).
Proof.
  intros [Hh Hc _] Ho. unfold List_set_delete. rewrite Hh. split; intros Hfuel.
  - rewrite (destroy_chain fuel _ hd cells tl) by done.
    f_equal. by apply foldr_delete_owned.
  - by eapply destroy_chain_short.
Qed.

(** X4: over the whole life of an object, from the constructor through
    any sequence of calls to the destructor, no node is leaked: the store
    is empty at the end. *)
Theorem lifetime_frees_all fuel (os : list (operation T)) :
  length os + 2 ≤ fuel →
  ∃ s0 bs s',
    List_set_new = Ok s0 ∧
    run fuel os s0 = Ok (bs, s') ∧
    List_set_delete fuel s' = Ok ∅.
Proof.
  intros Hfuel. destruct new_set_repr as (s0 & hd & tl & Hnew & Hr & Ho).
  destruct (run_refines_owned fuel os s0 hd [] tl [] Hr)
    as (s' & cells' & Hrun & Hr' & _ & _ & Hl & Ho'); [by apply SSorted_nil|done|simpl; lia|].
  eexists s0, _, s'. split_and!; [done..|].
  unfold List_set_delete. rewrite (repr_head _ _ _ _ Hr').
  rewrite (destroy_chain fuel _ hd cells' tl);
    [|by destruct Hr'|simpl in Hl; lia].
  f_equal. by apply foldr_delete_owned, Ho'.
Qed.

End runs.

(** ** How calls compose *)

Section compositions.
Context {T : Type} {ops : Element T} {ord : ElementOrder T}.
Implicit Types (s : List_set T) (hd tl : loc) (cells before after : list (loc * T)).
Implicit Types (xs : list T) (key : T) (o : operation T).

(** On a chain without a repeated element, the place of an element is
    unique. *)
Lemma cells_split_unique before before' victim victim' key after after' :
  NoDup (before ++ (victim, key) :: after).*2 →
  before ++ (victim, key) :: after = before' ++ (victim', key) :: after' →
  before = before' ∧ victim = victim' ∧ after = after'.
Proof.
  revert before'. induction before as [|c before IH]; intros [|c' before']; simpl.
  - intros _ [= -> ->]. done.
  - intros [Hk _]%NoDup_cons [= <- ->]. destruct Hk.
    rewrite fmap_app, fmap_cons. set_solver.
  - intros [Hk _]%NoDup_cons [= -> <-]. destruct Hk.
    rewrite fmap_app, fmap_cons. set_solver.
  - intros [_ Hnd]%NoDup_cons [= -> Heq].
    by destruct (IH _ Hnd Heq) as (-> & -> & ->).
Qed.

Lemma splice_elements before (nn : loc) key after x :
  x ∈ (before ++ (nn, key) :: after).*2 ↔ x ∈ (before ++ after).*2 ∨ x = key.
Proof. rewrite !fmap_app, fmap_cons. set_solver. Qed.

(** X5: removing a key just inserted gives back the object as it was
    before the insert: the same store, node for node. *)
Theorem insert_remove_restores fuel s key hd cells tl :
  list_repr s hd cells tl →
  ascending cells →
  key ∉ cells.*2 →
  length cells + 1 < fuel →
  ∃ s1, insert fuel s key = Ok (true, s1) ∧ remove fuel s1 key = Ok (true, s).
Proof.
  intros Hr Hs Hin Hfuel.
  destruct (insert_absent fuel s key _ _ _ Hr Hs) as
    (before & after & n & -> & _ & _ & Hn & Hnn & Hi & Hr1 & Hs1); [lia|done|].
  simpl in Hnn, Hi, Hr1, Hs1. revert Hnn Hi Hr1 Hs1.
  generalize (fresh (dom (heap s))). intros nn Hnn Hi Hr1 Hs1.
  eexists. split; [exact Hi|].
  destruct (remove_present fuel _ key _ _ _ Hr1 Hs1) as
    (before' & v & after' & n' & nv & Heq & _ & _ & Hn' & _ & Hnv & Hrm & _).
  { rewrite length_app in *. simpl in *. lia. }
  { rewrite fmap_app, fmap_cons. set_solver. }
  apply cells_split_unique in Heq as (<- & <- & <-); [|by apply ascending_NoDup].
  assert (last_of hd before ≠ nn) as Hne by congruence.
  simpl in Hn', Hnv, Hrm.
  rewrite lookup_insert_eq in Hn'. injection Hn' as <-.
  rewrite lookup_insert_ne, lookup_insert_eq in Hnv by done. injection Hnv as <-.
  simpl in Hrm. rewrite Hrm. do 2 f_equal. destruct s as [h l]. simpl in *. f_equal.
  apply map_eq. intros p.
  destruct (decide (p = nn)) as [->|]; [by rewrite lookup_delete_eq|].
  rewrite lookup_delete_ne by done.
  destruct (decide (p = last_of hd before)) as [->|].
  - rewrite lookup_insert_eq, Hn. by destruct n.
  - by rewrite !lookup_insert_ne by done.
Qed.

(** X6: inserting again a key just removed gives back the same elements
    in the same order (the node that holds the key is a new one). *)
Theorem remove_insert_restores fuel s key hd cells tl :
  list_repr s hd cells tl →
  ascending cells →
  key ∈ cells.*2 →
  length cells < fuel →
  ∃ s1 s2 cells2,
    remove fuel s key = Ok (true, s1) ∧
    insert fuel s1 key = Ok (true, s2) ∧
    list_repr s2 hd cells2 tl ∧
    ascending cells2 ∧
    cells2.*2 = cells.*2.
Proof.
  intros Hr Hs Hin Hfuel.
  destruct (remove_present fuel s key _ _ _ Hr Hs Hfuel Hin)
    as (before & v & after & n & nv & -> & _ & _ & _ & _ & _ & Hrm & Hr1 & Hs1).
  pose proof (ascending_unlink_elements before v key after key Hs) as Hk.
  assert (key ∉ (before ++ after).*2) as Hout by (rewrite Hk; tauto).
  destruct (insert_absent fuel _ key _ _ _ Hr1 Hs1) as
    (before' & after' & n' & Heq & _ & _ & _ & _ & Hi & Hr2 & Hs2); [|done|].
  { rewrite !length_app in *. simpl in *. lia. }
  eexists _, _, _. split_and!; [exact Hrm|exact Hi|exact Hr2|exact Hs2|].
  apply ascending_unique; [done..|]. intros x.
  rewrite splice_elements, <-Heq, (ascending_unlink_elements before v key after x Hs).
  split; [by intros [[? _]| ->]|]. intros Hx.
  destruct (elt_eqb x key) eqn:Hxk.
  - right. by apply elt_eqb_eq.
  - left. split; [done|]. by apply elt_eqb_neq.
Qed.

Lemma ref_run_two o1 o2 xs :
  ref_run [o1; o2] xs =
    ([(ref_call o1 xs).1; (ref_call o2 (ref_call o1 xs).2).1],
     (ref_call o2 (ref_call o1 xs).2).2).
Proof.
  simpl. destruct (ref_call o1 xs) as [b1 xs1]. simpl.
  by destruct (ref_call o2 xs1) as [b2 xs2].
Qed.

(** On the reference set, a call on another key changes neither the
    answer of a call nor, whichever comes first, the elements at the
    end. *)
Lemma ref_call_commute o1 o2 xs :
  key_of o1 ≠ key_of o2 →
  (ref_call o2 (ref_call o1 xs).2).1 = (ref_call o2 xs).1 ∧
  ∀ x, x ∈ (ref_call o2 (ref_call o1 xs).2).2 ↔ x ∈ (ref_call o1 (ref_call o2 xs).2).2.
Proof.
  intros Hne. split.
  - rewrite !ref_call_answer.
    assert (ref_member (key_of o2) (ref_call o1 xs).2 = ref_member (key_of o2) xs) as Hm.
    { apply eq_true_iff_eq. rewrite !ref_member_elem, ref_call_elements.
      destruct o1 as [key|key|key]; simpl in *; [done|..].
      - split; [|by left]. intros [?|?]; [done|]. by destruct Hne.
      - split; [by intros [? _]|]. intros ?. split; [done|]. by intros ?. }
    destruct o2; simpl in *; by rewrite Hm.
  - intros x.
    destruct o1, o2; repeat (rewrite ref_call_elements; cbn iota);
      simpl in Hne; intuition congruence.
Qed.

(** X7: two calls on different keys commute: made in either order on the
    same object they return the same two values, and leave the same
    elements in the same order. *)
Theorem distinct_keys_commute fuel o1 o2 s hd cells tl :
  list_repr s hd cells tl →
  ascending cells →
  key_of o1 ≠ key_of o2 →
  length cells + 2 ≤ fuel →
  ∃ b1 b2 s12 s21 cells12 cells21,
    run fuel [o1; o2] s = Ok ([b1; b2], s12) ∧
    run fuel [o2; o1] s = Ok ([b2; b1], s21) ∧
    list_repr s12 hd cells12 tl ∧
    list_repr s21 hd cells21 tl ∧
    cells12.*2 = cells21.*2.
Proof.
  intros Hr Hs Hne Hfuel.
  destruct (run_refines_owned fuel [o1; o2] s hd cells tl cells.*2 Hr Hs)
    as (s12 & cells12 & Hrun12 & Hr12 & Hs12 & Hx12 & _); [done|simpl; lia|].
  destruct (run_refines_owned fuel [o2; o1] s hd cells tl cells.*2 Hr Hs)
    as (s21 & cells21 & Hrun21 & Hr21 & Hs21 & Hx21 & _); [done|simpl; lia|].
  rewrite ref_run_two in Hrun12, Hrun21, Hx12, Hx21. simpl in *.
  destruct (ref_call_commute o1 o2 cells.*2 Hne) as [Ha2 Hel].
  destruct (ref_call_commute o2 o1 cells.*2) as [Ha1 _]; [done|].
  rewrite Ha2 in Hrun12. rewrite Ha1 in Hrun21.
  eexists _, _, s12, s21, cells12, cells21. split_and!; [done..|].
  apply ascending_unique; [done..|]. intros x. by rewrite Hx12, Hx21, Hel.
Qed.

(** X8: a call never moves an element to another node, and never changes
    the order of the nodes: [member] leaves the chain as it is, [insert]
    adds at most one node, at an address that was free, and [remove]
    takes off the chain only nodes that hold its key. *)
Theorem call_keeps_nodes fuel o s hd cells tl :
  list_repr s hd cells tl →
  ascending cells →
  length cells < fuel →
  ∃ b s' cells',
    call fuel o s = Ok (b, s') ∧
    list_repr s' hd cells' tl ∧
    match o with
    | Member _ => cells' = cells
    | Insert key =>
        cells `sublist_of` cells' ∧
        ∀ c, c ∈ cells' → c ∈ cells ∨ (c.2 = key ∧ heap s !! c.1 = None)
    | Remove key =>
        cells' `sublist_of` cells ∧
        ∀ c, c ∈ cells → c ∈ cells' ∨ (c.2 = key ∧ heap s' !! c.1 = None)
    end.
Proof.
  intros Hr Hs Hfuel. destruct o as [key|key|key]; simpl.
  - destruct (member_repr fuel s key _ _ _ Hr Hs Hfuel) as (b & -> & _).
    by exists b, s, cells.
  - destruct (elements_decide fuel s key _ _ _ Hr Hs Hfuel) as [Hin | Hin].
    + exists false, s, cells. split_and!; [by eapply insert_present|done..|by left].
    + destruct (insert_absent fuel s key _ _ _ Hr Hs Hfuel Hin)
        as (before & after & n & -> & _ & _ & _ & Hnn & Hi & Hr' & _).
      eexists _, _, _. split_and!; [exact Hi|exact Hr'| |].
      * apply sublist_app; [done|]. by apply sublist_cons.
      * intros c. rewrite !elem_of_app, elem_of_cons.
        intros [?|[->|?]]; [by left; left|by right|by left; right].
  - destruct (elements_decide fuel s key _ _ _ Hr Hs Hfuel) as [Hin | Hin].
    + destruct (remove_present fuel s key _ _ _ Hr Hs Hfuel Hin)
        as (before & v & after & n & nv & -> & _ & _ & _ & _ & _ & Hi & Hr' & _).
      eexists _, _, _. split_and!; [exact Hi|exact Hr'| |].
      * apply sublist_app; [done|]. by apply sublist_cons.
      * intros c. rewrite !elem_of_app, elem_of_cons.
        intros [?|[->|?]]; [by left; left| |by left; right].
        right. split; [done|]. simpl. by rewrite lookup_delete_eq.
    + exists false, s, cells. split_and!; [by eapply remove_absent|done..|by left].
Qed.

End compositions.

(** ** The walk of the diagnostics *)

Section diagnostics_facts.
Context {T : Type}.
Implicit Types (h : gmap loc (Node T)) (s : List_set T) (hd tl p : loc).
Implicit Types (cells : list (loc * T)).

Lemma chain_cell h p cells tl i c :
  chain h p cells tl →
  cells !! i = Some c →
  ∃ n, h !! c.1 = Some n ∧ element n = c.2 ∧ is_last n = false.
Proof.
  revert p i. induction cells as [|c' cells IH]; intros p i Hc Hi; [done|].
  destruct Hc as (_ & (n & Hn & Hx) & Hc). destruct i as [|i]; simpl in Hi.
  - injection Hi as ->. exists n. split_and!; [done..|].
    destruct (chain_links _ _ _ _ Hc) as (q & n' & Hn' & Hq).
    assert (n' = n) as -> by congruence. unfold is_last. by rewrite Hq.
  - by eapply IH.
Qed.

Lemma node_at_chain h p cells tl :
  chain h p cells tl →
  (∀ i c, cells !! i = Some c → node_at (S i) h p = Ok c.1) ∧
  node_at (S (length cells)) h p = Ok tl.
Proof.
  revert p. induction cells as [|c cells IH]; intros p Hc.
  - destruct Hc as [(n & Hn & Hq) (nt & Hnt & _)]. split; [done|].
    simpl. unfold load. rewrite Hn. simpl. unfold get_next. rewrite Hq. simpl.
    unfold load. by rewrite Hnt.
  - destruct Hc as ((n & Hn & Hq) & (nc & Hnc & _) & Hc).
    destruct (IH _ Hc) as [IHcells IHtl].
    assert (∀ k, node_at (S k) h p = node_at k h c.1) as Hstep.
    { intros k. simpl. unfold load. rewrite Hn. simpl. unfold get_next. rewrite Hq.
      simpl. unfold load. by rewrite Hnc. }
    split.
    + intros [|i] c' Hi; rewrite Hstep; simpl in Hi.
      * by injection Hi as ->.
      * by apply IHcells.
    + by rewrite Hstep.
Qed.

(** X9: the walk that the diagnostics make reads the set in order: [head()]
    is the head sentinel; [i+1] times [get_next()] from it lead to the
    [i]-th node of the chain, which is not last and whose [get_element()]
    is the [i]-th element; one step more leads to the tail sentinel, which
    is last. *)
Theorem diagnostic_walk s hd cells tl :
  list_repr s hd cells tl →
  head s = Ok hd ∧
  (∀ i c, cells !! i = Some c →
     ∃ n, node_at (S i) (heap s) hd = Ok c.1 ∧
          heap s !! c.1 = Some n ∧
          get_element n = c.2 ∧
          is_last n = false) ∧
  ∃ nt, node_at (S (length cells)) (heap s) hd = Ok tl ∧
        heap s !! tl = Some nt ∧
        is_last nt = true.
Proof.
  intros [Hh Hc _]. destruct (node_at_chain _ _ _ _ Hc) as [Hcells Htl]. split_and!.
  - unfold head. rewrite Hh. simpl.
    destruct (chain_links _ _ _ _ Hc) as (q & n & Hn & _). unfold load. by rewrite Hn.
  - intros i c Hi. destruct (chain_cell _ _ _ _ _ _ Hc Hi) as (n & Hn & Hx & Hl).
    exists n. split_and!; [by apply Hcells|done..].
  - destruct (chain_tail _ _ _ _ Hc) as (nt & Hnt & Hz).
    exists nt. split_and!; [done..|]. unfold is_last. by rewrite Hz.
Qed.

End diagnostics_facts.

(** ** The elements of the sentinels *)

Section sentinels.
Context {T : Type} {ops : Element T}.
Implicit Types (h : gmap loc (Node T)) (s : List_set T) (hd tl p : loc).
Implicit Types (cells before after : list (loc * T)) (key : T).

(** A chain stays one in a store with the same links and, on the cells,
    the same elements. *)
Lemma chain_same_links h h' p cells tl :
  chain h p cells tl →
  (∀ l n, h !! l = Some n →
     ∃ n', h' !! l = Some n' ∧ next n' = next n ∧ (l ∈ cells.*1 → element n' = element n)) →
  chain h' p cells tl.
Proof.
  revert p. induction cells as [|c cells IH]; intros p Hc Hsame.
  - destruct Hc as [(n & Hn & Hq) (nt & Hnt & Hz)]. split.
    + destruct (Hsame _ _ Hn) as (n' & Hn' & Hq' & _). exists n'. split; congruence.
    + destruct (Hsame _ _ Hnt) as (n' & Hn' & Hq' & _). exists n'. split; congruence.
  - destruct Hc as ((n & Hn & Hq) & (nc & Hnc & Hx) & Hc). split_and!.
    + destruct (Hsame _ _ Hn) as (n' & Hn' & Hq' & _). exists n'. split; congruence.
    + destruct (Hsame _ _ Hnc) as (n' & Hn' & _ & Hx'). exists n'. split; [done|].
      rewrite Hx'; [done|]. simpl. set_solver.
    + apply IH; [done|]. intros l m Hm.
      destruct (Hsame _ _ Hm) as (m' & Hm' & Hq' & Hx'). exists m'. split_and!; [done..|].
      intros Hl. apply Hx'. simpl. set_solver.
Qed.

(** The traversal stops at one place only. *)
Lemma stops_at_unique key before after before' after' :
  before ++ after = before' ++ after' →
  stops_at key before after →
  stops_at key before' after' →
  before = before' ∧ after = after'.
Proof.
  revert before'. induction before as [|c before IH]; intros [|c' before']; simpl.
  - done.
  - intros -> [_ Hle] [[Hlt _]%Forall_cons _]. unfold elt_lt in Hlt. congruence.
  - intros <- [[Hlt _]%Forall_cons _] [_ Hle]. unfold elt_lt in Hlt. congruence.
  - intros [= -> Heq] [[_ Hb]%Forall_cons Ha] [[_ Hb']%Forall_cons Ha'].
    by destruct (IH before' Heq) as [-> ->].
Qed.

(** X10: the elements of the two sentinels are never compared: with
    any other elements in them the object is still a chain over the same
    cells, and [find_predecessor] and [member] return the same. *)
Theorem sentinels_not_compared fuel s key hd cells tl (x y : T) :
  list_repr s hd cells tl →
  length cells < fuel →
  list_repr (with_sentinels x y hd tl s) hd cells tl ∧
  find_predecessor fuel (with_sentinels x y hd tl s) key = find_predecessor fuel s key ∧
  member fuel (with_sentinels x y hd tl s) key = member fuel s key.
Proof.
  intros Hr Hfuel.
  assert (list_repr (with_sentinels x y hd tl s) hd cells tl) as Hr'.
  { destruct Hr as [Hh Hc Hnd]. split; [done| |done].
    eapply chain_same_links; [exact Hc|]. intros l n Hn. simpl.
    unfold path in Hnd. apply NoDup_cons in Hnd as [Hhd Hnd].
    apply NoDup_app in Hnd as (_ & Htl & _).
    destruct (decide (l = hd)) as [->|Hlhd].
    - rewrite lookup_alter_eq.
      destruct (decide (hd = tl)) as [Heq|Hne]; [set_solver|].
      rewrite lookup_alter_ne, Hn by done. simpl.
      eexists. split_and!; [done..|]. set_solver.
    - rewrite lookup_alter_ne by done.
      destruct (decide (l = tl)) as [->|Hltl].
      + rewrite lookup_alter_eq, Hn. simpl.
        eexists. split_and!; [done..|]. intros Hin. destruct (Htl _ Hin). set_solver.
      + rewrite lookup_alter_ne, Hn by done. by eexists. }
  split; [done|].
  destruct (find_predecessor_repr fuel s key _ _ _ Hr Hfuel)
    as (before & after & Heq & Hst & Hf & Hc).
  destruct (find_predecessor_repr fuel _ key _ _ _ Hr' Hfuel)
    as (before' & after' & Heq' & Hst' & Hf' & Hc').
  destruct (stops_at_unique key before after before' after') as [<- <-]; [congruence|done..|].
  split; [congruence|].
  unfold member. rewrite Hf, Hf'. simpl.
  by rewrite (matches_chain _ key _ _ _ Hc), (matches_chain _ key _ _ _ Hc').
Qed.

End sentinels.

(** ** The properties beyond the claims on the concrete objects *)

Lemma example_set_owns_all : owns_all example_set 2%positive example_cells 1%positive.
Proof. by_computation. Defined.

Lemma run_from_new_set_witness :
  length scenario ≤ 9 ∧
  ∃ s0 s',
    List_set_new = Ok s0 ∧
    run 9 scenario s0 = Ok ((ref_run scenario []).1, s') ∧
    well_formed s'.
Proof.
  assert (length scenario ≤ 9) as Hfuel by (simpl; lia).
  split; [exact Hfuel|]. exact (run_from_new_set 9 scenario Hfuel).
Defined.

Lemma run_refines_witness :
  list_repr example_set 2%positive example_cells 1%positive ∧
  ascending example_cells ∧
  length example_cells + length [Remove 5%Z; Member 5%Z] ≤ 5 ∧
  ∃ s' cells',
    run 5 [Remove 5%Z; Member 5%Z] example_set =
      Ok ((ref_run [Remove 5%Z; Member 5%Z] example_cells.*2).1, s') ∧
    list_repr s' 2%positive cells' 1%positive ∧
    ascending cells' ∧
    ∀ x, x ∈ cells'.*2 ↔ x ∈ (ref_run [Remove 5%Z; Member 5%Z] example_cells.*2).2.
Proof.
  assert (length example_cells + length [Remove 5%Z; Member 5%Z] ≤ 5) as Hfuel
    by (simpl; lia).
  split_and!; [apply example_set_repr|apply example_cells_ascending|exact Hfuel|].
  exact (run_refines 5 [Remove 5%Z; Member 5%Z] example_set _ _ _
           example_set_repr example_cells_ascending Hfuel).
Defined.

Lemma destructor_frees_all_witness :
  list_repr example_set 2%positive example_cells 1%positive ∧
  owns_all example_set 2%positive example_cells 1%positive ∧
  (length example_cells + 2 ≤ 5 → List_set_delete 5 example_set = Ok ∅) ∧
  (5 < length example_cells + 2 → List_set_delete 5 example_set = Timeout).
Proof.
  split_and!; [apply example_set_repr|apply example_set_owns_all|..];
    apply (destructor_frees_all 5 example_set _ _ _ example_set_repr example_set_owns_all).
Defined.

Lemma lifetime_frees_all_witness :
  length scenario + 2 ≤ 11 ∧
  ∃ s0 bs s',
    List_set_new = Ok s0 ∧
    run 11 scenario s0 = Ok (bs, s') ∧
    List_set_delete 11 s' = Ok ∅.
Proof.
  assert (length scenario + 2 ≤ 11) as Hfuel by (simpl; lia).
  split; [exact Hfuel|]. exact (lifetime_frees_all 11 scenario Hfuel).
Defined.

Lemma example_cells_without_4 : 4%Z ∉ example_cells.*2.
Proof. apply (bool_decide_unpack _). by_computation. Defined.

Lemma example_cells_with_5 : 5%Z ∈ example_cells.*2.
Proof. apply (bool_decide_unpack _). by_computation. Defined.

Lemma insert_remove_restores_witness :
  list_repr example_set 2%positive example_cells 1%positive ∧
  ascending example_cells ∧
  (4%Z ∉ example_cells.*2) ∧
  length example_cells + 1 < 5 ∧
  ∃ s1, insert 5 example_set 4%Z = Ok (true, s1) ∧
        remove 5 s1 4%Z = Ok (true, example_set).
Proof.
  assert (length example_cells + 1 < 5) as Hfuel by (simpl; lia).
  split_and!; [apply example_set_repr|apply example_cells_ascending|
               apply example_cells_without_4|exact Hfuel|].
  exact (insert_remove_restores 5 example_set 4%Z _ _ _
           example_set_repr example_cells_ascending example_cells_without_4 Hfuel).
Defined.

Lemma remove_insert_restores_witness :
  list_repr example_set 2%positive example_cells 1%positive ∧
  ascending example_cells ∧
  5%Z ∈ example_cells.*2 ∧
  length example_cells < 4 ∧
  ∃ s1 s2 cells2,
    remove 4 example_set 5%Z = Ok (true, s1) ∧
    insert 4 s1 5%Z = Ok (true, s2) ∧
    list_repr s2 2%positive cells2 1%positive ∧
    ascending cells2 ∧
    cells2.*2 = example_cells.*2.
Proof.
  assert (length example_cells < 4) as Hfuel by (simpl; lia).
  split_and!; [apply example_set_repr|apply example_cells_ascending|
               apply example_cells_with_5|exact Hfuel|].
  exact (remove_insert_restores 4 example_set 5%Z _ _ _
           example_set_repr example_cells_ascending example_cells_with_5 Hfuel).
Defined.

Lemma distinct_keys_commute_witness :
  list_repr example_set 2%positive example_cells 1%positive ∧
  ascending example_cells ∧
  key_of (Insert 4%Z) ≠ key_of (Remove 5%Z) ∧
  length example_cells + 2 ≤ 5 ∧
  ∃ b1 b2 s12 s21 cells12 cells21,
    run 5 [Insert 4%Z; Remove 5%Z] example_set = Ok ([b1; b2], s12) ∧
    run 5 [Remove 5%Z; Insert 4%Z] example_set = Ok ([b2; b1], s21) ∧
    list_repr s12 2%positive cells12 1%positive ∧
    list_repr s21 2%positive cells21 1%positive ∧
    cells12.*2 = cells21.*2.
Proof.
  assert (length example_cells + 2 ≤ 5) as Hfuel by (simpl; lia).
  assert (key_of (Insert 4%Z) ≠ key_of (Remove 5%Z)) as Hne by (simpl; lia).
  split_and!; [apply example_set_repr|apply example_cells_ascending|exact Hne|exact Hfuel|].
  exact (distinct_keys_commute 5 (Insert 4%Z) (Remove 5%Z) example_set _ _ _
           example_set_repr example_cells_ascending Hne Hfuel).
Defined.

Lemma call_keeps_nodes_witness :
  list_repr example_set 2%positive example_cells 1%positive ∧
  ascending example_cells ∧
  length example_cells < 4 ∧
  ∃ b s' cells',
    call 4 (Remove 5%Z) example_set = Ok (b, s') ∧
    list_repr s' 2%positive cells' 1%positive ∧
    cells' `sublist_of` example_cells ∧
    ∀ c, c ∈ example_cells → c ∈ cells' ∨ (c.2 = 5%Z ∧ heap s' !! c.1 = None).
Proof.
  assert (length example_cells < 4) as Hfuel by (simpl; lia).
  split_and!; [apply example_set_repr|apply example_cells_ascending|exact Hfuel|].
  exact (call_keeps_nodes 4 (Remove 5%Z) example_set _ _ _
           example_set_repr example_cells_ascending Hfuel).
Defined.

Lemma diagnostic_walk_witness :
  list_repr example_set 2%positive example_cells 1%positive ∧
  head example_set = Ok 2%positive ∧
  (∀ i c, example_cells !! i = Some c →
     ∃ n, node_at (S i) (heap example_set) 2%positive = Ok c.1 ∧
          heap example_set !! c.1 = Some n ∧
          get_element n = c.2 ∧
          is_last n = false) ∧
  ∃ nt, node_at (S (length example_cells)) (heap example_set) 2%positive = Ok 1%positive ∧
        heap example_set !! 1%positive = Some nt ∧
        is_last nt = true.
Proof.
  split; [apply example_set_repr|].
  exact (diagnostic_walk example_set _ _ _ example_set_repr).
Defined.

Lemma sentinels_not_compared_witness :
  list_repr example_set 2%positive example_cells 1%positive ∧
  length example_cells < 4 ∧
  list_repr (with_sentinels 100%Z (-100)%Z 2%positive 1%positive example_set)
            2%positive example_cells 1%positive ∧
  find_predecessor 4 (with_sentinels 100%Z (-100)%Z 2%positive 1%positive example_set) 9%Z =
    find_predecessor 4 example_set 9%Z ∧
  member 4 (with_sentinels 100%Z (-100)%Z 2%positive 1%positive example_set) 9%Z =
    member 4 example_set 9%Z.
Proof.
  assert (length example_cells < 4) as Hfuel by (simpl; lia).
  split_and!; [apply example_set_repr|exact Hfuel|..];
    apply (sentinels_not_compared 4 example_set 9%Z _ _ _ 100%Z (-100)%Z
             example_set_repr Hfuel).
Defined.

(** The scenario, on the object and on the reference set. *)
Lemma scenario_answers :
  (ref_run scenario []).1 = [true; true; true; true; true; false; true; false; false] ∧
  (s0 ← List_set_new; '(bs, _) ← run 9 scenario s0; Ok bs) =
    Ok [true; true; true; true; true; false; true; false; false].
Proof. split; by_computation. Qed.
